(** * arpscan: a shallow embedding of the ARP scanner and its properties

    The Go program scans every physical interface of the host: for each
    interface [scanIface] opens a capture handle, starts [readARP] to
    print the replies it sees, and every five seconds runs [writeARP],
    which sends one ARP request to each address returned by [ips].

    Layout of this development:
    - [Bytes]       bytes and [encoding/binary]'s big-endian 32-bit codec;
    - [Net]         the parts of package [net] the program touches;
    - [Layers]      the [gopacket] layer records and constants;
    - [Enumerator]  [ips];
    - [Scanner]     [writeARP], [readARP], [scanIface], [getInterfaces], [run]
                    as functions over the outcomes of the external calls;
    - [Coordinator] the goroutines of [run] and their [sync.WaitGroup]
                    as an interleaving transition system;
    - the theorems. *)

From Stdlib Require Import ZArith Lia.
From Stdlib.Strings Require Import Byte.
From stdpp Require Import base list strings.
From Equations Require Import Equations.

Local Open Scope Z_scope.

(** Go's [error] values are represented by their message. *)
Definition error := string.

(* ===================================================================== *)
(** ** Bytes and big-endian words *)

Module Bytes.

(** The numeric value of a byte. *)
Definition byte_to_Z (b : byte) : Z := Z.of_N (Byte.to_N b).

(** Go's conversion [byte(v)]: keep the low eight bits. *)
Definition byte_of_Z (z : Z) : byte :=
  match Byte.of_N (Z.to_N (z mod 256)) with
  | Some b => b
  | None => x00
  end.

(** Arithmetic on [uint32] wraps around. *)
Definition MaxUint32 : Z := 0xffffffff.
Definition uint32 (z : Z) : Z := z mod 4294967296.

(** [binary.BigEndian.Uint32]: reads the first four bytes of the slice;
    the bounds check [_ = b[3]] panics on a shorter slice ([None]). *)
Definition Uint32 (b : list byte) : option Z :=
  match b with
  | b0 :: b1 :: b2 :: b3 :: _ =>
      Some (Z.lor (Z.lor (Z.lor (byte_to_Z b3) (Z.shiftl (byte_to_Z b2) 8))
                         (Z.shiftl (byte_to_Z b1) 16))
                  (Z.shiftl (byte_to_Z b0) 24))
  | _ => None
  end.

(** [binary.BigEndian.PutUint32] into a fresh [[4]byte]. *)
Definition PutUint32 (v : Z) : list byte :=
  [byte_of_Z (Z.shiftr v 24); byte_of_Z (Z.shiftr v 16);
   byte_of_Z (Z.shiftr v 8); byte_of_Z v].

(** [bytes.Equal]: same length and same contents; a nil slice equals an
    empty one, which the list model already identifies. *)
#[global] Instance byte_eq_dec : EqDecision byte := Byte.byte_eq_dec.

Definition Equal (a b : list byte) : bool := bool_decide (a = b).

(** Number of one bits among the low [n] bits. *)
Fixpoint popcount_upto (n : nat) (z : Z) : Z :=
  match n with
  | O => 0
  | S k => (if Z.testbit z (Z.of_nat k) then 1 else 0) + popcount_upto k z
  end.
Definition popcount (z : Z) : Z := popcount_upto 32 z.

End Bytes.

(* ===================================================================== *)
(** ** Package net *)

Module Net.

Definition IP := list byte.
Definition IPMask := list byte.
Definition HardwareAddr := list byte.

Record IPNet := mkIPNet { ipnet_IP : IP; ipnet_Mask : IPMask }.

(** [new(net.IPNet)]: both slices nil. *)
Definition zeroIPNet : IPNet := mkIPNet [] [].

(** The dynamic types behind the [net.Addr] interface. *)
Inductive Addr :=
| AddrIPNet (n : IPNet)
| AddrIPAddr (ip : IP).

Definition Flags := Z.
Definition FlagUp : Flags := 1.
Definition FlagBroadcast : Flags := 2.
Definition FlagLoopback : Flags := 4.
Definition FlagPointToPoint : Flags := 8.

(** [net.Interface]; its field [HardwareAddr] is [HardwareAddress] here,
    the name being taken by the type. *)
Record Interface := mkInterface {
  Name : string;
  HardwareAddress : HardwareAddr;
  IfaceFlags : Flags
}.

Definition isZeros (p : list byte) : bool :=
  forallb (fun b => Z.eqb (Bytes.byte_to_Z b) 0) p.

Definition byte_at (p : list byte) (i : nat) : Z :=
  match p !! i with Some b => Bytes.byte_to_Z b | None => 0 end.

(** [IP.To4]: a 4-byte address is returned as it is, an IPv4-mapped
    16-byte address gives its last four bytes, anything else nil. *)
Definition To4 (ip : IP) : option IP :=
  if Nat.eqb (length ip) 4 then Some ip
  else if Nat.eqb (length ip) 16 && isZeros (take 10 ip)
          && Z.eqb (byte_at ip 10) 0xff && Z.eqb (byte_at ip 11) 0xff
       then Some (take 4 (drop 12 ip))
       else None.

(** The slice expression [m[len(m)-4:]]; a negative bound panics. *)
Definition last4 (m : IPMask) : option IPMask :=
  if Nat.ltb (length m) 4 then None else Some (drop (length m - 4) m).

(** [net.CIDRMask(ones, 32)] as a number: [ones] one bits, then zeros. *)
Definition CIDRMask (ones : Z) : Z := 2 ^ 32 - 2 ^ (32 - ones).

(** An address the search of [scanIface] passes over: not an [*net.IPNet],
    or one whose [IP.To4()] is nil. *)
Definition not_ipv4 (a : Addr) : Prop :=
  match a with
  | AddrIPNet n => To4 (ipnet_IP n) = None
  | AddrIPAddr _ => True
  end.

End Net.

(* ===================================================================== *)
(** ** The subnet enumerator *)

Module Enumerator.
Import Bytes Net.

(** Iterations the loop of [ips] still has to make. *)
Definition remaining (mask : Z) : nat := Z.to_nat (MaxUint32 - mask).

(** [mask++] and [num++] on [uint32]. *)
Definition incr (z : Z) : Z := uint32 (z + 1).

Lemma remaining_incr mask :
  mask < MaxUint32 -> (remaining (incr mask) < remaining mask)%nat.
Proof.
  unfold remaining, incr, uint32, MaxUint32. intros Hlt.
  pose proof (Z.mod_pos_bound (mask + 1) 4294967296 eq_refl) as Hb.
  destruct (Z_lt_dec mask 0) as [Hneg | Hpos].
  - lia.
  - rewrite Z.mod_small by lia. lia.
Qed.

#[local] Opaque remaining incr MaxUint32.
#[local] Obligation Tactic := idtac.

(** The loop [for mask < 0xffffffff { ...; mask++; num++ }]. *)
Equations ips_loop (mask num : Z) (out : list IP) : list IP
  by wf (remaining mask) lt :=
  ips_loop mask num out with Z_lt_dec mask MaxUint32 => {
    | left _ := ips_loop (incr mask) (incr num) (out ++ [PutUint32 num]);
    | right _ := out }.
Next Obligation. intros. apply remaining_incr. assumption. Qed.

#[local] Transparent remaining incr MaxUint32.

(** [ips]: [None] when one of the two [Uint32] reads panics. *)
Definition ips (n : IPNet) : option (list IP) :=
  match Uint32 (ipnet_IP n), Uint32 (ipnet_Mask n) with
  | Some num, Some mask => Some (ips_loop mask (Z.land num mask) [])
  | _, _ => None
  end.

End Enumerator.

(* ===================================================================== *)
(** ** gopacket layers *)

Module Layers.
Import Net.

(** Constants of [gopacket/layers]. *)
Definition EthernetTypeIPv4 : Z := 0x0800.
Definition EthernetTypeARP : Z := 0x0806.
Definition LinkTypeEthernet : Z := 1.
Definition ARPRequest : Z := 1.
Definition ARPReply : Z := 2.

Record Ethernet := mkEthernet {
  SrcMAC : HardwareAddr;
  DstMAC : HardwareAddr;
  EthernetType : Z
}.

Record ARP := mkARP {
  AddrType : Z;
  Protocol : Z;
  HwAddressSize : Z;
  ProtAddressSize : Z;
  Operation : Z;
  SourceHwAddress : list byte;
  SourceProtAddress : list byte;
  DstHwAddress : list byte;
  DstProtAddress : list byte
}.

(** The assignment [arp.DstProtAddress = ip]. *)
Definition set_DstProtAddress (arp : ARP) (ip : list byte) : ARP :=
  mkARP (AddrType arp) (Protocol arp) (HwAddressSize arp)
        (ProtAddressSize arp) (Operation arp) (SourceHwAddress arp)
        (SourceProtAddress arp) (DstHwAddress arp) ip.

Record SerializeOptions := mkSerializeOptions {
  FixLengths : bool;
  ComputeChecksums : bool
}.

(** A decoded packet is the list of its layers. *)
Inductive Layer :=
| LayerEthernet (eth : Ethernet)
| LayerARP (arp : ARP)
| LayerPayload (data : list byte).

Definition Packet := list Layer.

(** [packet.Layer(layers.LayerTypeARP)]: the first ARP layer, nil if the
    packet has none. *)
Fixpoint ARPLayer (p : Packet) : option ARP :=
  match p with
  | [] => None
  | LayerARP arp :: _ => Some arp
  | _ :: rest => ARPLayer rest
  end.

End Layers.

(* ===================================================================== *)
(** ** The scanner: one interface *)

Module Scanner.
Import Bytes Net Layers Enumerator.

(** A call that returns [(value, error)]. *)
Inductive result (A : Type) :=
| Ok (a : A)
| Err (e : error).
Arguments Ok {A} a.
Arguments Err {A} e.

(** What lies outside the program: the operating system, libpcap, the
    gopacket serializer and the cancellation of the shared context.
    [Done t] is what a receive on [ctx.Done()] finds at the [t]-th poll
    a task makes. *)
Class External := {
  Handle : Type;
  Interfaces : result (list Interface);
  Readlink : string -> result string;
  Join : string -> string -> string;
  Clean : string -> string;
  Addrs : Interface -> result (list Addr);
  OpenLive : string -> result Handle;
  WritePacketData : Handle -> list byte -> Handle * option error;
  SerializeLayers :
    list byte -> SerializeOptions -> Ethernet -> ARP -> list byte * option error;
  Done : nat -> bool
}.

(** [context.Canceled]. *)
Definition Canceled : error := "context canceled".

(** The constants of the program; the ticker of [scanIface] fires every
    [arpPingInterval] seconds. *)
Definition FlagLowerUp : Z := Z.shiftl 1 16.
Definition arpPingInterval : Z := 5.

(** The lines the program prints, one constructor per format string. *)
Inductive LogMsg :=
| LogAddrsFailed (name : string) (err : error)
| LogOpenFailed (err : error)
| LogScanning (name : string)
| LogStopScanner (name : string)
| LogWriteError (name : string) (err : error)
| LogStopReader (name : string)
| LogFound (name : string) (ip : IP) (hw : HardwareAddr)
| LogStopWriter (name : string)
| LogWarn (err : error).

(** What a task does, in order. *)
Inductive Event :=
| EvLog (m : LogMsg)
| EvPoll (done : bool)
| EvSerialize (eth : Ethernet) (arp : ARP) (err : option error)
| EvWrite (data : list byte) (err : option error)
| EvSpawnReader
| EvClose.

(** *** readARP *)

(** The body of the [case packet = <-in] branch. *)
Definition readARP_packet (iface : Interface) (packet : Packet) : list LogMsg :=
  match ARPLayer packet with
  | None => []
  | Some arp =>
      if negb (Z.eqb (Operation arp) ARPReply)
         || Equal (HardwareAddress iface) (SourceHwAddress arp)
      then []
      else [LogFound (Name iface) (SourceProtAddress arp) (SourceHwAddress arp)]
  end.

(** The case the [select] of [readARP] takes. *)
Inductive Received :=
| RecvDone
| RecvPacket (packet : Packet).

(** [readARP] over the cases its [select] takes, in order; the boolean
    tells whether it has returned. *)
Fixpoint readARP (iface : Interface) (inbox : list Received) : list LogMsg * bool :=
  match inbox with
  | [] => ([], false)
  | RecvDone :: _ => ([LogStopReader (Name iface)], true)
  | RecvPacket packet :: rest =>
      let '(log, stopped) := readARP iface rest in
      (readARP_packet iface packet ++ log, stopped)
  end.

Section WithExternal.
Context `{ext : External}.

(** *** writeARP *)

Definition broadcastMAC : HardwareAddr := [xff; xff; xff; xff; xff; xff].

Definition eth_of (iface : Interface) : Ethernet :=
  mkEthernet (HardwareAddress iface) broadcastMAC EthernetTypeARP.

Definition arp_of (iface : Interface) (addr : IPNet) : ARP :=
  mkARP LinkTypeEthernet EthernetTypeIPv4 6 4 ARPRequest
        (HardwareAddress iface) (ipnet_IP addr)
        [x00; x00; x00; x00; x00; x00] [].

Definition opts : SerializeOptions := mkSerializeOptions true true.

(** [gopacket.NewSerializeBuffer()]; the buffer is its bytes. *)
Definition NewSerializeBuffer : list byte := [].

(** State of a sweep when it ends. *)
Record Sweep := mkSweep {
  sw_events : list Event;
  sw_handle : Handle;
  sw_buf : list byte;
  sw_time : nat;
  sw_err : option error
}.

Definition prepend (evs : list Event) (s : Sweep) : Sweep :=
  mkSweep (evs ++ sw_events s) (sw_handle s) (sw_buf s) (sw_time s) (sw_err s).

Definition warning (serr : option error) : list Event :=
  match serr with
  | Some e => [EvLog (LogWarn e)]
  | None => []
  end.

(** The loop [for _, ip := range ips(addr)] of [writeARP]. *)
Fixpoint sweep (iface : Interface) (eth : Ethernet) (arp : ARP)
    (cands : list IP) (h : Handle) (buf : list byte) (t : nat) : Sweep :=
  match cands with
  | [] => mkSweep [] h buf t None
  | ip :: rest =>
      if Done t then
        mkSweep [EvPoll true; EvLog (LogStopWriter (Name iface))]
                h buf (S t) (Some Canceled)
      else
        let arp' := set_DstProtAddress arp ip in
        let '(buf', serr) := SerializeLayers buf opts eth arp' in
        let '(h', werr) := WritePacketData h buf' in
        let evs := [EvPoll false; EvSerialize eth arp' serr]
                   ++ warning serr ++ [EvWrite buf' werr] in
        match werr with
        | Some e => mkSweep evs h' buf' (S t) (Some e)
        | None => prepend evs (sweep iface eth arp' rest h' buf' (S t))
        end
  end.

(** [writeARP]; [None] when [ips] panics. *)
Definition writeARP (iface : Interface) (addr : IPNet) (h : Handle) (t : nat)
    : option Sweep :=
  match ips addr with
  | None => None
  | Some cands =>
      Some (sweep iface (eth_of iface) (arp_of iface addr) cands h
                  NewSerializeBuffer t)
  end.

(** *** scanIface *)

(** The case the [select] of [scanIface] takes. *)
Inductive Woken :=
| WokenDone
| WokenTick.

Inductive DriverStatus :=
| Waiting
| Stopped
| Panicked.

(** The [for { select { ... } }] loop of [scanIface] over the cases its
    [select] takes; [Waiting] when the task is blocked in the [select]
    at the end of the schedule. The deferred [handle.Close()] runs when
    the function returns. *)
Fixpoint scan_loop (iface : Interface) (addr : IPNet) (sched : list Woken)
    (h : Handle) (t : nat) : list Event * DriverStatus :=
  match sched with
  | [] => ([], Waiting)
  | WokenDone :: _ => ([EvLog (LogStopScanner (Name iface)); EvClose], Stopped)
  | WokenTick :: rest =>
      match writeARP iface addr h t with
      | None => ([], Panicked)
      | Some sw =>
          match sw_err sw with
          | Some e =>
              (sw_events sw ++ [EvLog (LogWriteError (Name iface) e); EvClose],
               Stopped)
          | None =>
              let '(evs, st) := scan_loop iface addr rest (sw_handle sw) (sw_time sw) in
              (sw_events sw ++ evs, st)
          end
      end
  end.

(** The loop [for _, a := range addrs] that looks for an IPv4 address;
    [None] when the mask slice expression panics. *)
Fixpoint find_addr (addrs : list Addr) (addr : IPNet) : option IPNet :=
  match addrs with
  | [] => Some addr
  | AddrIPNet ipnet :: rest =>
      match To4 (ipnet_IP ipnet) with
      | Some ip4 =>
          match last4 (ipnet_Mask ipnet) with
          | Some m => Some (mkIPNet ip4 m)
          | None => None
          end
      | None => find_addr rest addr
      end
  | _ :: rest => find_addr rest addr
  end.

Inductive ScanOutcome :=
| Skipped (log : list LogMsg)
| SetupPanic
| Scanned (addr : IPNet) (events : list Event) (st : DriverStatus).

(** [scanIface]: [Skipped] when it returns before it opened a handle,
    with the lines it printed. *)
Definition scanIface (iface : Interface) (sched : list Woken) : ScanOutcome :=
  match Addrs iface with
  | Err err => Skipped [LogAddrsFailed (Name iface) err]
  | Ok addrs =>
      if Nat.eqb (length addrs) 0 then Skipped []
      else
        match find_addr addrs zeroIPNet with
        | None => SetupPanic
        | Some addr =>
            match OpenLive (Name iface) with
            | Err err => Skipped [LogOpenFailed err]
            | Ok h =>
                let '(evs, st) := scan_loop iface addr sched h 0 in
                Scanned addr
                  (EvLog (LogScanning (Name iface)) :: EvSpawnReader :: evs) st
            end
        end
  end.

(** *** getInterfaces and run *)

Definition sysfsPath : string := "/sys/class/net".
Definition sysfsVirtualDevsPath : string := "/sys/devices/virtual".

Definition isPhysicalNIC (nic : Interface) : bool :=
  match Readlink (Join sysfsPath (Name nic)) with
  | Err _ => false
  | Ok dstPath =>
      negb (String.prefix sysfsVirtualDevsPath (Clean (Join sysfsPath dstPath)))
  end.

Definition skipped_by_flags (iface : Interface) : bool :=
  negb (Z.eqb (Z.land (IfaceFlags iface) FlagPointToPoint) 0)
  || negb (Z.eqb (Z.land (IfaceFlags iface) FlagLoopback) 0)
  || Z.eqb (Z.land (IfaceFlags iface) FlagUp) 0.

Definition eligible (iface : Interface) : bool :=
  negb (skipped_by_flags iface) && isPhysicalNIC iface.

Definition getInterfaces : result (list Interface) :=
  match Interfaces with
  | Err err => Err err
  | Ok allIfaces => Ok (filter (fun i => eligible i = true) allIfaces)
  end.

(** [run], each [scanIface] with the schedule of its own [select]: the
    error it returns and what every interface's task did. *)
Definition run (sched : Interface -> list Woken)
    : option error * list (Interface * ScanOutcome) :=
  match getInterfaces with
  | Err err => (Some err, [])
  | Ok ifaces => (None, map (fun i => (i, scanIface i (sched i))) ifaces)
  end.

End WithExternal.

#[global] Instance Woken_eq_dec : EqDecision Woken.
Proof. solve_decision. Defined.

End Scanner.

(* ===================================================================== *)
(** ** The application context *)

Module AppContext.

(** The package variables [once], [ctx] and [cancelFunc], with the
    contexts [context.WithCancel] has made so far (a context is known by
    its number) and the contexts a signal goroutine is waiting to cancel. *)
Record Globals := mkGlobals {
  once_done : bool;
  ctx : option nat;
  cancelFunc : option nat;
  created : nat;
  watching : list nat
}.

(** The variables when the program starts: [ctx] and [cancelFunc] nil. *)
Definition start : Globals := mkGlobals false None None 0 [].

(** [GetApplicationContext]: [once.Do] runs its function on the first call
    only; every call returns the variable [ctx]. *)
Definition GetApplicationContext (g : Globals) : Globals * option nat :=
  if once_done g then (g, ctx g)
  else
    let c := created g in
    (mkGlobals true (Some c) (Some c) (S c) (c :: watching g), Some c).

(** A number of calls in a row, with what each returned. *)
Fixpoint calls (k : nat) (g : Globals) : Globals * list (option nat) :=
  match k with
  | O => (g, [])
  | S k' =>
      let '(g1, c) := GetApplicationContext g in
      let '(g2, cs) := calls k' g1 in
      (g2, c :: cs)
  end.

End AppContext.

(* ===================================================================== *)
(** ** The coordinator: goroutines and the WaitGroup *)

Module Coordinator.

(** Where a goroutine is. A [scanIface] goroutine is in [Setup] until it
    has opened its handle and started [readARP], then [Looping] in its
    [select] loop (sweeps included); a [readARP] goroutine is [Looping]
    from the start. *)
Inductive Task :=
| Absent
| Setup
| Looping
| Returned.

#[global] Instance Task_eq_dec : EqDecision Task.
Proof. solve_decision. Defined.

Record World := mkWorld {
  wg : Z;                (* the counter of [wg] *)
  cancelled : bool;      (* [ctx.Done()] is closed *)
  started : nat;         (* iterations the loop of [run] has made *)
  drivers : list Task;   (* the [scanIface] goroutine of each interface *)
  readers : list Task;   (* the [readARP] goroutine of each interface *)
  returned : bool;       (* [run] has returned *)
  panicked : bool        (* the process died of a run-time panic *)
}.

(** [run] after [getInterfaces] returned [n] interfaces. *)
Definition init (n : nat) : World :=
  mkWorld 0 false 0 (replicate n Absent) (replicate n Absent) false false.

Inductive Action :=
| RunSpawn                 (* run: [wg.Add(1); go scanIface(...)] *)
| RunWait                  (* run: [wg.Wait()] returns *)
| Cancel                   (* the signal handler calls [cancelFunc()] *)
| SetupFails (i : nat)     (* scanIface: a [return] above the loop *)
| SetupDone (i : nat)      (* scanIface: [go readARP(...)], enters the loop *)
| DriverDone (i : nat)     (* scanIface: [case <-ctx.Done()], returns *)
| DriverFails (i : nat)    (* scanIface: [writeARP] gave an error, returns *)
| ReaderDone (i : nat).    (* readARP: [case <-ctx.Done()], returns *)

(** [wg.Done()], the deferred call of both [scanIface] and [readARP]:
    the counter goes down by one, and [sync] panics when it becomes
    negative. *)
Definition wg_Done (w : World) : World :=
  mkWorld (wg w - 1) (cancelled w) (started w) (drivers w) (readers w)
          (returned w) (panicked w || (wg w - 1 <? 0)).

Definition set_driver (i : nat) (s : Task) (w : World) : World :=
  mkWorld (wg w) (cancelled w) (started w) (<[i := s]> (drivers w)) (readers w)
          (returned w) (panicked w).

Definition set_reader (i : nat) (s : Task) (w : World) : World :=
  mkWorld (wg w) (cancelled w) (started w) (drivers w) (<[i := s]> (readers w))
          (returned w) (panicked w).

Definition driver_is (i : nat) (s : Task) (w : World) : bool :=
  bool_decide (drivers w !! i = Some s).

Definition reader_is (i : nat) (s : Task) (w : World) : bool :=
  bool_decide (readers w !! i = Some s).

Definition guard (b : bool) (w : World) : option World :=
  if b then Some w else None.

(** One step of one goroutine; [None] when the goroutine cannot take
    that step in [w]. A dead process takes no step. *)
Definition step (a : Action) (w : World) : option World :=
  if panicked w then None else
  match a with
  | RunSpawn =>
      guard (negb (returned w) && driver_is (started w) Absent w)
        (mkWorld (wg w + 1) (cancelled w) (S (started w))
                 (<[started w := Setup]> (drivers w)) (readers w)
                 (returned w) (panicked w))
  | RunWait =>
      guard (negb (returned w) && (started w =? length (drivers w))%nat
             && (wg w =? 0))
        (mkWorld (wg w) (cancelled w) (started w) (drivers w) (readers w)
                 true (panicked w))
  | Cancel =>
      Some (mkWorld (wg w) true (started w) (drivers w) (readers w)
                    (returned w) (panicked w))
  | SetupFails i =>
      guard (driver_is i Setup w) (wg_Done (set_driver i Returned w))
  | SetupDone i =>
      guard (driver_is i Setup w) (set_reader i Looping (set_driver i Looping w))
  | DriverDone i =>
      guard (driver_is i Looping w && cancelled w)
        (wg_Done (set_driver i Returned w))
  | DriverFails i =>
      guard (driver_is i Looping w) (wg_Done (set_driver i Returned w))
  | ReaderDone i =>
      guard (reader_is i Looping w && cancelled w)
        (wg_Done (set_reader i Returned w))
  end.

Fixpoint exec (sched : list Action) (w : World) : option World :=
  match sched with
  | [] => Some w
  | a :: rest =>
      match step a w with
      | Some w' => exec rest w'
      | None => None
      end
  end.

(** How many of the goroutines [l] satisfy [p]. *)
Fixpoint tally (p : Task -> bool) (l : list Task) : Z :=
  match l with
  | [] => 0
  | s :: rest => (if p s then 1 else 0) + tally p rest
  end.

Definition is_spawned (s : Task) : bool := negb (bool_decide (s = Absent)).
Definition is_live (s : Task) : bool :=
  bool_decide (s = Setup) || bool_decide (s = Looping).
Definition is_returned (s : Task) : bool := bool_decide (s = Returned).

(** Goroutines that were started, and those among them still running. *)
Definition spawned (w : World) : Z :=
  tally is_spawned (drivers w) + tally is_spawned (readers w).
Definition live (w : World) : Z :=
  tally is_live (drivers w) + tally is_live (readers w).

(** What the counter of the WaitGroup amounts to: [run] adds one for each
    [scanIface] it starts, every goroutine that returns takes one off,
    and nothing is added for a [readARP]. No [readARP] returns before the
    cancellation. *)
Definition accounted (w : World) : Prop :=
  wg w = tally is_live (drivers w) - tally is_returned (readers w) /\
  (cancelled w = false -> tally is_returned (readers w) = 0).

(** The [readARP] of an interface does not exist before its [scanIface]
    has started it. *)
Definition dormant (w : World) : Prop :=
  forall i s, drivers w !! i = Some s -> s = Absent \/ s = Setup ->
              readers w !! i = Some Absent.

(** The loop of [run] starts the [scanIface] goroutines in order, and
    [run] returns only after it has started all of them. *)
Definition shaped (w : World) : Prop :=
  (forall i s, drivers w !! i = Some s -> s = Absent <-> (started w <= i)%nat) /\
  (returned w = true -> started w = length (drivers w)).

(** The counter of the WaitGroup against the flags of the world. *)
Definition balanced (w : World) : Prop :=
  (panicked w = false -> 0 <= wg w) /\
  (returned w = true -> wg w <= 0).

(** The actions by which a goroutine returns. *)
Definition is_return (a : Action) : bool :=
  match a with
  | SetupFails _ | DriverDone _ | DriverFails _ | ReaderDone _ => true
  | _ => false
  end.

End Coordinator.


(* ===================================================================== *)
(** ** Observations on a task's events *)

Module Trace.
Import Scanner.

(** The frames handed to the capture handle, with the outcome of each. *)
Definition writes (tr : list Event) : list (list byte * option error) :=
  omap (fun e => match e with EvWrite d r => Some (d, r) | _ => None end) tr.

(** The layers handed to the serializer, with the outcome of each. *)
Definition serialized (tr : list Event)
    : list (Layers.Ethernet * Layers.ARP * option error) :=
  omap (fun e => match e with EvSerialize eth arp r => Some (eth, arp, r) | _ => None end) tr.

(** What the polls of the cancellation signal found. *)
Definition polls (tr : list Event) : list bool :=
  omap (fun e => match e with EvPoll b => Some b | _ => None end) tr.

Definition logged (tr : list Event) : list LogMsg :=
  omap (fun e => match e with EvLog m => Some m | _ => None end) tr.

(** Every write uses up a poll that found the signal not fired, made
    since the previous write; after a poll that found it fired there is
    no write at all. [armed] tells whether such a poll is at hand. *)
Fixpoint guarded (armed : bool) (tr : list Event) : bool :=
  match tr with
  | [] => true
  | EvPoll false :: rest => guarded true rest
  | EvPoll true :: rest => bool_decide (writes rest = [])
  | EvWrite _ _ :: rest => armed && guarded false rest
  | _ :: rest => guarded armed rest
  end.

(** A series of serializations replayed from the buffer contents [buf]:
    the contents of the buffer and the error after each of them. *)
Fixpoint replay `{ext : External} (buf : list byte)
    (calls : list (Layers.Ethernet * Layers.ARP)) : list (list byte * option error) :=
  match calls with
  | [] => []
  | (eth, arp) :: rest =>
      let r := SerializeLayers buf opts eth arp in
      r :: replay r.1 rest
  end.

End Trace.

(* ===================================================================== *)
(** ** A concrete environment *)

Module Lab.
Import Bytes Net Layers Scanner.

Definition mac0 : HardwareAddr := [x02; x00; x00; x00; x00; x01].

(** Interfaces of the lab host: [eth0] has 192.168.1.10/30, [eth1] has no
    address, [eth2] has only the IPv6 address fe80::1/64, the capture
    handle of [eth3] cannot be opened, and [eth4] has a 5-byte hardware
    address. *)
Definition eth0 : Interface := mkInterface "eth0" mac0 (Z.lor FlagUp FlagBroadcast).
Definition eth1 : Interface := mkInterface "eth1" mac0 (Z.lor FlagUp FlagBroadcast).
Definition eth2 : Interface := mkInterface "eth2" mac0 (Z.lor FlagUp FlagBroadcast).
Definition eth3 : Interface := mkInterface "eth3" mac0 (Z.lor FlagUp FlagBroadcast).
Definition eth4 : Interface :=
  mkInterface "eth4" [x02; x00; x00; x00; x01] (Z.lor FlagUp FlagBroadcast).

Definition net30 : IPNet := mkIPNet [xc0; xa8; x01; x0a] [xff; xff; xff; xfc].

Definition linklocal6 : IPNet :=
  mkIPNet [xfe; x80; x00; x00; x00; x00; x00; x00;
           x00; x00; x00; x00; x00; x00; x00; x01]
          [xff; xff; xff; xff; xff; xff; xff; xff;
           x00; x00; x00; x00; x00; x00; x00; x00].

Definition lab_Addrs (iface : Interface) : result (list Addr) :=
  if String.eqb (Name iface) "eth1" then Ok []
  else if String.eqb (Name iface) "eth2" then Ok [AddrIPNet linklocal6]
  else Ok [AddrIPNet net30].

Definition lab_OpenLive (name : string) : result nat :=
  if String.eqb name "eth3" then Err "eth3: You don't have permission to capture on that device"
  else Ok 0%nat.

Definition be16 (v : Z) : list byte := [byte_of_Z (Z.shiftr v 8); byte_of_Z v].

Definition ip8 : IP := [xc0; xa8; x01; x08].
Definition ip9 : IP := [xc0; xa8; x01; x09].
Definition ip10 : IP := [xc0; xa8; x01; x0a].

(** A stand-in for the serializer: it refuses a source hardware address
    that is not six bytes long and the target addresses [reject] names,
    and then leaves the buffer as it was. *)
Definition lab_SerializeLayers (reject : IP -> bool)
    (buf : list byte) (o : SerializeOptions)
    (eth : Ethernet) (arp : ARP) : list byte * option error :=
  if negb (Nat.eqb (length (SrcMAC eth)) 6) then (buf, Some "invalid src MAC")
  else if reject (DstProtAddress arp) then (buf, Some "serializer gave up")
  else
    (DstMAC eth ++ SrcMAC eth ++ be16 (EthernetType eth)
     ++ be16 (AddrType arp) ++ be16 (Protocol arp)
     ++ [byte_of_Z (HwAddressSize arp); byte_of_Z (ProtAddressSize arp)]
     ++ be16 (Operation arp)
     ++ SourceHwAddress arp ++ SourceProtAddress arp
     ++ DstHwAddress arp ++ DstProtAddress arp, None).

(** The lab host. The handle counts the frames it was given; [down k]
    tells whether the write of frame number [k] fails, [done] is the
    cancellation signal. *)
Definition lab (done down : nat -> bool) (reject : IP -> bool) : External := {|
  Handle := nat;
  Interfaces := Ok [eth0; eth1; eth2; eth3];
  Readlink := fun path => Ok "../../devices/pci0000:00/0000:00:1f.6/net";
  Join := fun a b => a +:+ "/" +:+ b;
  Clean := fun p => p;
  Addrs := lab_Addrs;
  OpenLive := lab_OpenLive;
  WritePacketData := fun h data =>
    (S h, if down h then Some "send: Network is down" else None);
  SerializeLayers := lab_SerializeLayers reject;
  Done := done
|}.

(** The lab host with a serializer that, as [gopacket.SerializeLayers]
    does, clears the buffer before it writes the layers: what the buffer
    held before the call is gone, and a refusal leaves it empty. *)
Definition lab_clearing (done down : nat -> bool) (reject : IP -> bool) : External := {|
  Handle := nat;
  Interfaces := Ok [eth0; eth1; eth2; eth3];
  Readlink := fun path => Ok "../../devices/pci0000:00/0000:00:1f.6/net";
  Join := fun a b => a +:+ "/" +:+ b;
  Clean := fun p => p;
  Addrs := lab_Addrs;
  OpenLive := lab_OpenLive;
  WritePacketData := fun h data =>
    (S h, if down h then Some "send: Network is down" else None);
  SerializeLayers := fun buf => lab_SerializeLayers reject [];
  Done := done
|}.

Definition never : nat -> bool := fun _ => false.
Definition always : nat -> bool := fun _ => true.
Definition at_second : nat -> bool := fun k => Nat.eqb k 1.
Definition none : IP -> bool := fun _ => false.
Definition only9 : IP -> bool := fun ip => bool_decide (ip = ip9).

(** The frame the lab serializer builds on [eth0] for a target address. *)
Definition frame0 (ip : IP) : list byte :=
  (lab_SerializeLayers none [] (mkSerializeOptions true true)
     (mkEthernet mac0 [xff; xff; xff; xff; xff; xff] EthernetTypeARP)
     (mkARP LinkTypeEthernet EthernetTypeIPv4 6 4 ARPRequest mac0 ip10
            [x00; x00; x00; x00; x00; x00] ip)).1.

End Lab.

(* ===================================================================== *)
(** * Properties *)

(** ** Big-endian words *)

Section BytesFacts.
Import Bytes.

Lemma byte_to_Z_range (b : byte) : 0 <= byte_to_Z b < 256.
Proof.
  unfold byte_to_Z. pose proof (Byte.to_N_bounded b). lia.
Qed.

Lemma byte_to_of_Z (z : Z) : byte_to_Z (byte_of_Z z) = z mod 256.
Proof.
  unfold byte_to_Z, byte_of_Z.
  pose proof (Z.mod_pos_bound z 256 eq_refl) as Hb.
  destruct (Byte.of_N (Z.to_N (z mod 256))) as [b|] eqn:E.
  - apply Byte.to_of_N in E. rewrite E. lia.
  - apply Byte.of_N_None_iff in E. lia.
Qed.

Lemma land_le_r (a b : Z) : 0 <= b -> Z.land a b <= b.
Proof.
  intros Hb.
  assert (Hsplit : b = Z.ldiff b a + Z.land b a).
  { rewrite Z.add_nocarry_lor.
    - symmetry. apply Z.lor_ldiff_and.
    - rewrite (Z.land_comm b a), Z.land_assoc, Z.land_ldiff. reflexivity. }
  assert (0 <= Z.ldiff b a) by (apply Z.ldiff_nonneg; lia).
  rewrite (Z.land_comm a b). lia.
Qed.

Lemma lor_shiftl_add (a b k : Z) :
  0 <= k -> 0 <= a < 2 ^ k -> Z.lor a (Z.shiftl b k) = a + b * 2 ^ k.
Proof.
  intros Hk Ha. rewrite Z.shiftl_mul_pow2 by lia.
  symmetry. apply Z.add_nocarry_lor.
  apply Z.bits_inj'. intros n Hn.
  rewrite Z.land_spec, Z.bits_0.
  destruct (Z_lt_dec n k) as [Hlt | Hge].
  - rewrite Z.mul_pow2_bits_low by lia. apply andb_false_r.
  - rewrite <- (Z.mod_small a (2 ^ k)) by lia.
    rewrite Z.mod_pow2_bits_high by lia. reflexivity.
Qed.

(** The value [Uint32] reads is the big-endian sum of its four bytes. *)
Lemma Uint32_sum (b0 b1 b2 b3 : byte) (rest : list byte) :
  Uint32 (b0 :: b1 :: b2 :: b3 :: rest)
  = Some (byte_to_Z b3 + byte_to_Z b2 * 2 ^ 8 + byte_to_Z b1 * 2 ^ 16
          + byte_to_Z b0 * 2 ^ 24).
Proof.
  pose proof (byte_to_Z_range b0). pose proof (byte_to_Z_range b1).
  pose proof (byte_to_Z_range b2). pose proof (byte_to_Z_range b3).
  unfold Uint32. f_equal.
  rewrite (lor_shiftl_add (byte_to_Z b3)) by lia.
  rewrite (lor_shiftl_add (_ + _)) by lia.
  rewrite (lor_shiftl_add (_ + _)) by lia.
  reflexivity.
Qed.

Lemma Uint32_range (b : list byte) (v : Z) :
  Uint32 b = Some v -> 0 <= v < 2 ^ 32.
Proof.
  destruct b as [|b0 [|b1 [|b2 [|b3 rest]]]]; try discriminate.
  rewrite Uint32_sum. intros [= <-].
  pose proof (byte_to_Z_range b0). pose proof (byte_to_Z_range b1).
  pose proof (byte_to_Z_range b2). pose proof (byte_to_Z_range b3).
  lia.
Qed.

(** A short slice makes [Uint32] panic, and only a short slice does. *)
Lemma Uint32_None (b : list byte) : Uint32 b = None <-> (length b < 4)%nat.
Proof.
  destruct b as [|b0 [|b1 [|b2 [|b3 rest]]]]; simpl; split; intros H;
    try reflexivity; try lia; try discriminate.
Qed.

Lemma Uint32_PutUint32 (v : Z) : 0 <= v < 2 ^ 32 -> Uint32 (PutUint32 v) = Some v.
Proof.
  intros Hv. unfold PutUint32. rewrite Uint32_sum. f_equal.
  rewrite !byte_to_of_Z, !Z.shiftr_div_pow2 by lia.
  change (2 ^ 8) with 256. change (2 ^ 16) with 65536.
  change (2 ^ 24) with 16777216. change (2 ^ 32) with 4294967296 in Hv.
  Z.div_mod_to_equations. lia.
Qed.

Lemma popcount_CIDRMask (ones : Z) :
  0 <= ones <= 32 -> popcount (Net.CIDRMask ones) = ones.
Proof.
  intros H.
  assert (Hk : exists k : nat, ones = Z.of_nat k /\ (k <= 32)%nat).
  { exists (Z.to_nat ones). lia. }
  destruct Hk as (k & -> & Hk).
  do 33 (destruct k as [|k]; [vm_compute; reflexivity|]). lia.
Qed.

End BytesFacts.

(** ** The enumerator *)

Section EnumeratorFacts.
Import Bytes Net Enumerator.

Lemma ips_loop_unfold (mask num : Z) (out : list IP) :
  ips_loop mask num out
  = if Z_lt_dec mask MaxUint32
    then ips_loop (incr mask) (incr num) (out ++ [PutUint32 num])
    else out.
Proof.
  rewrite ips_loop_equation_1.
  destruct (Z_lt_dec mask MaxUint32); reflexivity.
Qed.

(** The loop appends the [k = 0xffffffff - mask] numbers from [num] on,
    as long as the counter [num] does not wrap. *)
Lemma ips_loop_spec (k : nat) :
  forall mask num out,
    0 <= mask -> 0 <= num ->
    MaxUint32 - mask = Z.of_nat k ->
    num + Z.of_nat k <= MaxUint32 ->
    ips_loop mask num out = out ++ (PutUint32 <$> seqZ num (Z.of_nat k)).
Proof.
  unfold MaxUint32.
  induction k as [|k IH]; intros mask num out Hm Hn Hk Hw;
    rewrite ips_loop_unfold; unfold MaxUint32.
  - destruct (Z_lt_dec mask 4294967295); [lia|].
    simpl. rewrite app_nil_r. reflexivity.
  - destruct (Z_lt_dec mask 4294967295); [|lia].
    assert (Hmi : incr mask = mask + 1).
    { unfold incr, uint32. apply Z.mod_small. lia. }
    assert (Hni : incr num = num + 1).
    { unfold incr, uint32. apply Z.mod_small. lia. }
    rewrite Hmi, Hni, IH by lia.
    rewrite (seqZ_cons num) by lia.
    rewrite fmap_cons, <- app_assoc. simpl.
    replace (Z.succ num) with (num + 1) by lia.
    replace (Z.pred (Z.of_nat (S k))) with (Z.of_nat k) by lia.
    reflexivity.
Qed.

(** Whatever the mask, [ips] returns the [0xffffffff - mask] addresses
    that start at [addr & mask]. *)
Lemma ips_general (n : IPNet) (addr mask : Z) :
  Uint32 (ipnet_IP n) = Some addr ->
  Uint32 (ipnet_Mask n) = Some mask ->
  ips n = Some (PutUint32 <$> seqZ (Z.land addr mask) (MaxUint32 - mask)).
Proof.
  intros Ha Hm. unfold ips. rewrite Ha, Hm.
  apply Uint32_range in Ha, Hm.
  pose proof (land_le_r addr mask ltac:(lia)) as Hle.
  assert (0 <= Z.land addr mask) by (apply Z.land_nonneg; lia).
  change (2 ^ 32) with 4294967296 in *.
  rewrite (ips_loop_spec (Z.to_nat (MaxUint32 - mask)));
    unfold MaxUint32; try lia.
  rewrite Z2Nat.id by lia. reflexivity.
Qed.

Lemma Uint32_fmap_PutUint32 (a len : Z) :
  0 <= a -> a + len <= 2 ^ 32 ->
  Uint32 <$> (PutUint32 <$> seqZ a len) = Some <$> seqZ a len.
Proof.
  intros Ha Hl. rewrite <- list_fmap_compose.
  apply list_eq. intros i. rewrite !list_lookup_fmap.
  destruct (seqZ a len !! i) as [v|] eqn:E; [|reflexivity].
  apply lookup_seqZ in E as [-> Hi].
  change (Some (Uint32 (PutUint32 (a + Z.of_nat i))) = Some (Some (a + Z.of_nat i))).
  rewrite Uint32_PutUint32 by lia. reflexivity.
Qed.

End EnumeratorFacts.

Section EnumeratorClaims.
Import Bytes Net Enumerator.

(** C1, as stated, fails: for 192.168.1.10 with the mask 255.255.255.253,
    which has 31 one bits, [ips] returns the two addresses 192.168.1.8 and
    192.168.1.9, not the [2^(32-31) - 1 = 1] address of the claim. *)
Lemma ips_sparse_mask_length :
  let n := mkIPNet [xc0; xa8; x01; x0a] [xff; xff; xff; xfd] in
  Uint32 (ipnet_Mask n) = Some 0xfffffffd /\
  popcount 0xfffffffd = 31 /\
  ips n = Some [[xc0; xa8; x01; x08]; [xc0; xa8; x01; x09]] /\
  forall out, ips n = Some out ->
    Z.of_nat (length out) <> 2 ^ (32 - popcount 0xfffffffd) - 1.
Proof.
  repeat split; try (vm_compute; reflexivity).
  intros out. vm_compute. intros [= <-]. discriminate.
Qed.

(** C1, amended to masks of CIDR form ([ones] one bits followed by zeros,
    the masks [net] gives an interface): [ips] returns, in ascending
    order, exactly the addresses from [base = addr & mask] up to
    [base + 2^(32 - popcount mask) - 2]; there are
    [2^(32 - popcount mask) - 1] of them, the last address of the subnet
    (its broadcast address) is not among them, and a /32 mask gives the
    empty list. *)
Theorem ips_cidr_range (n : IPNet) (addr ones : Z) :
  Uint32 (ipnet_IP n) = Some addr ->
  Uint32 (ipnet_Mask n) = Some (CIDRMask ones) ->
  0 <= ones <= 32 ->
  exists out,
    ips n = Some out /\
    Uint32 <$> out
      = Some <$> seqZ (Z.land addr (CIDRMask ones))
                      (2 ^ (32 - popcount (CIDRMask ones)) - 1) /\
    Z.of_nat (length out) = 2 ^ (32 - popcount (CIDRMask ones)) - 1 /\
    (forall v, Some v ∈ Uint32 <$> out <->
       Z.land addr (CIDRMask ones) <= v
         <= Z.land addr (CIDRMask ones) + 2 ^ (32 - popcount (CIDRMask ones)) - 2) /\
    (forall i j x y, (i < j)%nat ->
       Uint32 <$> (out !! i) = Some (Some x) ->
       Uint32 <$> (out !! j) = Some (Some y) -> x < y) /\
    (ones = 32 -> out = []).
Proof.
  intros Ha Hm Hones.
  rewrite popcount_CIDRMask by assumption.
  pose proof (ips_general n addr _ Ha Hm) as Hips.
  apply Uint32_range in Ha.
  pose proof (Uint32_range _ _ Hm) as Hmr.
  pose proof (land_le_r addr (CIDRMask ones) ltac:(lia)) as Hle.
  assert (Hbase : 0 <= Z.land addr (CIDRMask ones)) by (apply Z.land_nonneg; lia).
  assert (Hlen : MaxUint32 - CIDRMask ones = 2 ^ (32 - ones) - 1).
  { unfold MaxUint32, CIDRMask. change (2 ^ 32) with 4294967296. lia. }
  assert (Hpow : 0 < 2 ^ (32 - ones)) by (apply Z.pow_pos_nonneg; lia).
  rewrite Hlen in Hips.
  set (base := Z.land addr (CIDRMask ones)) in *.
  set (cnt := 2 ^ (32 - ones) - 1) in *.
  assert (Hfit : base + cnt <= 2 ^ 32) by (unfold cnt, CIDRMask in *; lia).
  eexists. split; [exact Hips|].
  rewrite Uint32_fmap_PutUint32 by assumption.
  split; [|split; [|split; [intros v; split|split]]].
  - reflexivity.
  - rewrite length_fmap, length_seqZ. lia.
  - intros Hin. apply list_elem_of_fmap in Hin as (w & [= ->] & Hw).
    apply elem_of_seqZ in Hw. lia.
  - intros Hv. apply list_elem_of_fmap. exists v. split; [reflexivity|].
    apply elem_of_seqZ. lia.
  - intros i j x y Hij Hi Hj.
    rewrite list_lookup_fmap in Hi, Hj.
    destruct (seqZ base cnt !! i) as [x'|] eqn:Ei; [|discriminate].
    destruct (seqZ base cnt !! j) as [y'|] eqn:Ej; [|discriminate].
    apply lookup_seqZ in Ei as [-> Hi']. apply lookup_seqZ in Ej as [-> Hj'].
    change (Some (Uint32 (PutUint32 (base + Z.of_nat i))) = Some (Some x)) in Hi.
    change (Some (Uint32 (PutUint32 (base + Z.of_nat j))) = Some (Some y)) in Hj.
    rewrite Uint32_PutUint32 in Hi, Hj by lia.
    injection Hi as <-. injection Hj as <-. lia.
  - intros ->. reflexivity.
Qed.

Lemma ips_cidr_range_witness :
  exists out,
    ips (mkIPNet [xc0; xa8; x01; x0a] [xff; xff; xff; xfc]) = Some out /\
    Uint32 <$> out
      = Some <$> seqZ (Z.land 0xc0a8010a (CIDRMask 30))
                      (2 ^ (32 - popcount (CIDRMask 30)) - 1) /\
    Z.of_nat (length out) = 2 ^ (32 - popcount (CIDRMask 30)) - 1 /\
    (forall v, Some v ∈ Uint32 <$> out <->
       Z.land 0xc0a8010a (CIDRMask 30) <= v
         <= Z.land 0xc0a8010a (CIDRMask 30) + 2 ^ (32 - popcount (CIDRMask 30)) - 2) /\
    (forall i j x y, (i < j)%nat ->
       Uint32 <$> (out !! i) = Some (Some x) ->
       Uint32 <$> (out !! j) = Some (Some y) -> x < y) /\
    (30 = 32 -> out = []).
Proof.
  apply (ips_cidr_range (mkIPNet [xc0; xa8; x01; x0a] [xff; xff; xff; xfc])
                        0xc0a8010a 30).
  - reflexivity.
  - reflexivity.
  - lia.
Defined.

End EnumeratorClaims.

(** ** The reply listener *)

Section ListenerClaims.
Import Bytes Net Layers Scanner.

(** C3: for a received frame [readARP] prints a discovery, the line with
    the source protocol and hardware address, if and only if the frame has
    an ARP layer whose operation is "reply" and whose source hardware
    address differs from the interface's own; any other frame is dropped
    without a line, and the loop goes on with the next frame. *)
Theorem readARP_discovery (iface : Interface) (packet : Packet) :
  (forall msg, msg ∈ readARP_packet iface packet <->
     exists arp, ARPLayer packet = Some arp /\
                 Operation arp = ARPReply /\
                 SourceHwAddress arp <> HardwareAddress iface /\
                 msg = LogFound (Name iface) (SourceProtAddress arp)
                                (SourceHwAddress arp)) /\
  (ARPLayer packet = None \/
   (exists arp, ARPLayer packet = Some arp /\
                (Operation arp <> ARPReply \/
                 SourceHwAddress arp = HardwareAddress iface)) ->
   readARP_packet iface packet = []) /\
  (forall rest,
     readARP iface (RecvPacket packet :: rest)
     = (readARP_packet iface packet ++ (readARP iface rest).1,
        (readARP iface rest).2)).
Proof.
  split; [|split].
  - intros msg. unfold readARP_packet, Equal.
    destruct (ARPLayer packet) as [arp|].
    + destruct (Z.eqb_spec (Operation arp) ARPReply) as [Hop | Hop]; simpl.
      * case_bool_decide as Hhw.
        -- split; [intros Hin; inversion Hin|].
           intros (arp' & [= <-] & _ & Hne & _). congruence.
        -- rewrite list_elem_of_singleton. split.
           ++ intros ->. exists arp. repeat split; congruence.
           ++ intros (arp' & [= <-] & _ & _ & ->). reflexivity.
      * split; [intros Hin; inversion Hin|].
        intros (arp' & [= <-] & Hop' & _). contradiction.
    + split; [intros Hin; inversion Hin|].
      intros (arp' & Habs & _). discriminate.
  - unfold readARP_packet, Equal.
    intros [-> | (arp & -> & [Hop | Hhw])]; [reflexivity| |].
    + destruct (Z.eqb_spec (Operation arp) ARPReply); [contradiction|reflexivity].
    + rewrite bool_decide_eq_true_2 by congruence.
      rewrite orb_true_r. reflexivity.
  - intros rest. simpl. destruct (readARP iface rest). reflexivity.
Qed.

Lemma readARP_discovery_witness :
  readARP Lab.eth0
    [RecvPacket [LayerARP (mkARP LinkTypeEthernet EthernetTypeIPv4 6 4 ARPReply
                                 [x02; x00; x00; x00; x00; x02] Lab.ip9
                                 Lab.mac0 Lab.ip10)];
     RecvPacket [LayerARP (mkARP LinkTypeEthernet EthernetTypeIPv4 6 4 ARPReply
                                 Lab.mac0 Lab.ip10 Lab.mac0 Lab.ip10)];
     RecvDone]
  = ([LogFound "eth0" Lab.ip9 [x02; x00; x00; x00; x00; x02];
      LogStopReader "eth0"], true).
Proof.
  destruct (readARP_discovery Lab.eth0
              [LayerARP (mkARP LinkTypeEthernet EthernetTypeIPv4 6 4 ARPReply
                               [x02; x00; x00; x00; x00; x02] Lab.ip9
                               Lab.mac0 Lab.ip10)]) as (_ & _ & Hloop).
  rewrite Hloop.
  destruct (readARP_discovery Lab.eth0
              [LayerARP (mkARP LinkTypeEthernet EthernetTypeIPv4 6 4 ARPReply
                               Lab.mac0 Lab.ip10 Lab.mac0 Lab.ip10)])
    as (_ & Hdrop & Hloop').
  rewrite Hloop', Hdrop.
  - reflexivity.
  - right. eexists. split; [reflexivity|]. right. reflexivity.
Defined.

End ListenerClaims.

(** ** The probe driver *)

Section DriverFacts.
Import Bytes Net Layers Enumerator Scanner Trace.
Context `{ext : External}.

Lemma writes_app (a b : list Event) : writes (a ++ b) = writes a ++ writes b.
Proof. apply omap_app. Qed.

Lemma serialized_app (a b : list Event) :
  serialized (a ++ b) = serialized a ++ serialized b.
Proof. apply omap_app. Qed.

Lemma polls_app (a b : list Event) : polls (a ++ b) = polls a ++ polls b.
Proof. apply omap_app. Qed.

Lemma writes_warning (serr : option error) : writes (warning serr) = [].
Proof. destruct serr; reflexivity. Qed.

Lemma serialized_warning (serr : option error) : serialized (warning serr) = [].
Proof. destruct serr; reflexivity. Qed.

Lemma polls_warning (serr : option error) : polls (warning serr) = [].
Proof. destruct serr; reflexivity. Qed.

Lemma guarded_warning (serr : option error) (b : bool) (tr : list Event) :
  guarded b (warning serr ++ tr) = guarded b tr.
Proof. destruct serr; reflexivity. Qed.

Lemma guarded_no_writes (tr : list Event) :
  writes tr = [] -> forall b, guarded b tr = true.
Proof.
  induction tr as [|e tr IH]; intros Hw b; [reflexivity|].
  destruct e as [m|[|]| | | |]; simpl in *; try discriminate; auto.
  rewrite bool_decide_eq_true_2; auto.
Qed.

(** What [guarded] says in terms of the list of events: nothing is
    written after a poll that found the signal fired, and every write has,
    since the previous write, a poll of its own that found it not fired. *)
Lemma guarded_after_fired (b : bool) (pre post : list Event) :
  guarded b (pre ++ EvPoll true :: post) = true -> writes post = [].
Proof.
  revert b. induction pre as [|e pre IH]; intros b; simpl.
  - intros H. apply bool_decide_eq_true in H. exact H.
  - destruct e as [m|[|]|eth arp r|d r| |]; simpl; try apply IH.
    + intros H. apply bool_decide_eq_true in H.
      rewrite writes_app in H. apply app_eq_nil in H as [_ H]. exact H.
    + intros H. apply andb_true_iff in H as [_ H]. exact (IH _ H).
Qed.

Lemma guarded_write_polled (b : bool) (pre post : list Event) d r :
  guarded b (pre ++ EvWrite d r :: post) = true ->
  (b = true /\ writes pre = [] /\ polls pre = []) \/
  (exists pre1 mid, pre = pre1 ++ EvPoll false :: mid /\
                    writes mid = [] /\ polls mid = []).
Proof.
  revert b. induction pre as [|e pre IH]; intros b; simpl.
  - intros H. apply andb_true_iff in H as [-> _]. left. auto.
  - destruct e as [m|[|]|eth arp r'|d' r'| |]; simpl; intros H.
    + destruct (IH _ H) as [(-> & Hw & Hp) | (pre1 & mid & -> & Hw & Hp)];
        [left; auto | right; exists (EvLog m :: pre1), mid; auto].
    + apply bool_decide_eq_true in H. rewrite writes_app in H.
      apply app_eq_nil in H as [_ H]. discriminate.
    + destruct (IH _ H) as [(_ & Hw & Hp) | (pre1 & mid & -> & Hw & Hp)];
        right; [exists [], pre; auto | exists (EvPoll false :: pre1), mid; auto].
    + destruct (IH _ H) as [(-> & Hw & Hp) | (pre1 & mid & -> & Hw & Hp)];
        [left; auto | right; exists (EvSerialize eth arp r' :: pre1), mid; auto].
    + apply andb_true_iff in H as [_ H].
      destruct (IH _ H) as [(Hb & _) | (pre1 & mid & -> & Hw & Hp)];
        [discriminate | right; exists (EvWrite d' r' :: pre1), mid; auto].
    + destruct (IH _ H) as [(-> & Hw & Hp) | (pre1 & mid & -> & Hw & Hp)];
        [left; auto | right; exists (EvSpawnReader :: pre1), mid; auto].
    + destruct (IH _ H) as [(-> & Hw & Hp) | (pre1 & mid & -> & Hw & Hp)];
        [left; auto | right; exists (EvClose :: pre1), mid; auto].
Qed.

(** One iteration of the loop of [writeARP]. *)
Ltac sweep_step :=
  simpl;
  destruct (Done _) eqn:?;
  [| destruct (SerializeLayers _ _ _ _) as [? ?] eqn:?;
     destruct (WritePacketData _ _) as [? [?|]] eqn:? ].

(** With the signal fired at its first poll, a sweep that has a
    candidate writes nothing and returns [context.Canceled]. *)
Lemma sweep_cancelled iface eth arp ip rest h buf t :
  Done t = true ->
  sweep iface eth arp (ip :: rest) h buf t
  = mkSweep [EvPoll true; EvLog (LogStopWriter (Name iface))] h buf (S t)
            (Some Canceled).
Proof. intros Hd. simpl. rewrite Hd. reflexivity. Qed.

Lemma sweep_guarded iface eth arp cands h buf t (tail : list Event) :
  (forall b, guarded b tail = true) ->
  (sw_err (sweep iface eth arp cands h buf t) <> None -> writes tail = []) ->
  forall b, guarded b (sw_events (sweep iface eth arp cands h buf t) ++ tail) = true.
Proof.
  revert arp h buf t.
  induction cands as [|ip rest IH]; intros arp h buf t Htail Herr b.
  - simpl. apply Htail.
  - revert Herr. sweep_step; simpl; intros Herr.
    + rewrite bool_decide_eq_true_2; [reflexivity|]. apply Herr. discriminate.
    + rewrite <- app_assoc, guarded_warning. simpl.
      apply Htail.
    + rewrite <- !app_assoc, guarded_warning. simpl.
      apply IH; assumption.
Qed.

Lemma scan_loop_guarded iface addr sched h t :
  forall b, guarded b (scan_loop iface addr sched h t).1 = true.
Proof.
  revert h t. induction sched as [|[|] rest IH]; intros h t b; simpl.
  - reflexivity.
  - reflexivity.
  - unfold writeARP. destruct (ips addr) as [cands|]; [|reflexivity].
    set (sw := sweep _ _ _ _ _ _ _).
    destruct (sw_err sw) as [e|] eqn:Ee.
    + simpl. apply sweep_guarded; [destruct b0; reflexivity | reflexivity].
    + specialize (IH (sw_handle sw) (sw_time sw)).
      destruct (scan_loop iface addr rest (sw_handle sw) (sw_time sw)) as [evs st].
      simpl in *. apply sweep_guarded; [exact IH|].
      intros Hne. exfalso. apply Hne. exact Ee.
Qed.

Lemma sweep_arp_irrelevant iface eth arp x cands h buf t :
  sweep iface eth (set_DstProtAddress arp x) cands h buf t
  = sweep iface eth arp cands h buf t.
Proof. destruct cands; reflexivity. Qed.

Lemma prepend_prepend (a b : list Event) (s : Sweep) :
  prepend a (prepend b s) = prepend (a ++ b) s.
Proof. unfold prepend. simpl. rewrite app_assoc. reflexivity. Qed.

(** A sweep over [l1 ++ l2] is the sweep over [l1], followed, when that
    one ran to its end, by the sweep over [l2] from the state it left. *)
Lemma sweep_app iface eth arp l1 l2 h buf t :
  sweep iface eth arp (l1 ++ l2) h buf t
  = match sw_err (sweep iface eth arp l1 h buf t) with
    | Some _ => sweep iface eth arp l1 h buf t
    | None =>
        prepend (sw_events (sweep iface eth arp l1 h buf t))
          (sweep iface eth arp l2
                 (sw_handle (sweep iface eth arp l1 h buf t))
                 (sw_buf (sweep iface eth arp l1 h buf t))
                 (sw_time (sweep iface eth arp l1 h buf t)))
    end.
Proof.
  revert arp h buf t. induction l1 as [|ip rest IH]; intros arp h buf t.
  - simpl. destruct (sweep iface eth arp l2 h buf t). reflexivity.
  - sweep_step; simpl; try reflexivity.
    rewrite IH, !sweep_arp_irrelevant.
    destruct (sw_err (sweep iface eth _ rest _ _ _)); [reflexivity|].
    rewrite prepend_prepend. reflexivity.
Qed.

Lemma default_last_cons {A} (a b x : A) (l : list A) :
  default a (last (x :: l)) = default b (last (x :: l)).
Proof.
  revert x. induction l as [|y l IH]; intros x; [reflexivity|].
  change (last (x :: y :: l)) with (last (y :: l)). apply IH.
Qed.

(** The buffer a sweep leaves holds the frame it wrote last. *)
Lemma sweep_buf_last iface eth arp cands h buf t :
  sw_buf (sweep iface eth arp cands h buf t)
  = default buf (last (writes (sw_events (sweep iface eth arp cands h buf t))).*1).
Proof.
  revert arp h buf t. induction cands as [|ip rest IH]; intros arp h buf t.
  - reflexivity.
  - sweep_step; simpl; rewrite ?writes_app, ?writes_warning; simpl.
    + reflexivity.
    + reflexivity.
    + rewrite IH.
      destruct (writes (sw_events (sweep iface eth _ rest _ _ _))) as [|w ws];
        [reflexivity|].
      change (default l (last (w.1 :: ws.*1))
              = default buf (last (l :: w.1 :: ws.*1))).
      change (last (l :: w.1 :: ws.*1)) with (last (w.1 :: ws.*1)).
      apply default_last_cons.
Qed.

(** There is a write for every serialization, successful or not, and it
    carries the contents of the buffer after that serialization. *)
Lemma sweep_replay iface eth arp cands h buf t :
  let evs := sw_events (sweep iface eth arp cands h buf t) in
  length (writes evs) = length (serialized evs) /\
  zip ((writes evs).*1) ((serialized evs).*2) = replay buf ((serialized evs).*1).
Proof.
  cbv zeta.
  revert arp h buf t. induction cands as [|ip rest IH]; intros arp h buf t.
  - split; reflexivity.
  - sweep_step; simpl;
      rewrite ?writes_app, ?serialized_app, ?writes_warning, ?serialized_warning;
      simpl.
    + split; reflexivity.
    + match goal with H : SerializeLayers _ _ _ _ = _ |- _ => rewrite H end.
      split; reflexivity.
    + match goal with H : SerializeLayers _ _ _ _ = _ |- _ => rewrite H end.
      simpl. destruct (IH (set_DstProtAddress arp ip) h0 l (S t)) as [IHl IHz].
      split; [f_equal; exact IHl | f_equal; exact IHz].
Qed.

(** A sweep that runs to its end polls, serializes and writes once for
    each candidate. *)
Lemma sweep_complete iface eth arp cands h buf t :
  let sw := sweep iface eth arp cands h buf t in
  sw_err sw = None ->
  length (writes (sw_events sw)) = length cands /\
  polls (sw_events sw) = replicate (length cands) false /\
  Forall (fun w => w.2 = None) (writes (sw_events sw)).
Proof.
  cbv zeta.
  revert arp h buf t. induction cands as [|ip rest IH]; intros arp h buf t.
  - intros _. repeat split. constructor.
  - sweep_step; simpl; try discriminate.
    rewrite ?writes_app, ?polls_app, ?writes_warning, ?polls_warning; simpl.
    intros Herr. destruct (IH _ _ _ _ Herr) as (IHw & IHp & IHf).
    repeat split; [f_equal; exact IHw | f_equal; exact IHp |].
    constructor; [reflexivity | exact IHf].
Qed.

(** A sweep ends early only on a poll that finds the signal fired or on
    a write that fails, and that is the last thing it does apart from
    printing the stop notice. *)
Lemma sweep_err_cause iface eth arp cands h buf t (e : error) :
  let sw := sweep iface eth arp cands h buf t in
  sw_err sw = Some e ->
  (e = Canceled /\
   exists pre, sw_events sw
               = pre ++ [EvPoll true; EvLog (LogStopWriter (Name iface))]) \/
  (exists pre d, sw_events sw = pre ++ [EvWrite d (Some e)]).
Proof.
  cbv zeta.
  revert arp h buf t. induction cands as [|ip rest IH]; intros arp h buf t.
  - discriminate.
  - sweep_step; simpl.
    + intros [= <-]. left. split; [reflexivity|]. exists []. reflexivity.
    + intros [= <-]. right.
      eexists (EvPoll false :: EvSerialize _ _ _ :: warning _), _.
      simpl. reflexivity.
    + intros Herr. destruct (IH _ _ _ _ Herr) as [[-> [pre Hpre]] | (pre & d & Hpre)].
      * left. split; [reflexivity|]. rewrite Hpre.
        eexists (EvPoll false :: EvSerialize _ _ _ :: (warning _ ++ [EvWrite _ _]) ++ pre).
        simpl. rewrite <- !app_assoc. reflexivity.
      * right. rewrite Hpre.
        eexists (EvPoll false :: EvSerialize _ _ _ :: (warning _ ++ [EvWrite _ _]) ++ pre), d.
        simpl. rewrite <- !app_assoc. reflexivity.
Qed.

(** Peel the first event off both sides of a decomposition of a list of
    events around a given event. *)
Ltac peel H pre :=
  destruct pre as [|? pre]; simpl in H;
  [try discriminate H | injection H as _ H].

(** Nothing follows a failed write in a sweep, and its error is the one
    the sweep returns. *)
Lemma sweep_failed_write_last iface eth arp cands h buf t pre d e post :
  sw_events (sweep iface eth arp cands h buf t) = pre ++ EvWrite d (Some e) :: post ->
  post = [] /\ sw_err (sweep iface eth arp cands h buf t) = Some e.
Proof.
  revert arp h buf t pre. induction cands as [|ip rest IH]; intros arp h buf t pre.
  - simpl. intros H. destruct pre; discriminate.
  - sweep_step; simpl.
    + intros H. do 2 peel H pre. destruct pre; discriminate.
    + destruct o; simpl; intros H.
      * do 3 peel H pre. peel H pre.
        -- injection H as _ -> <-. auto.
        -- destruct pre; discriminate.
      * do 2 peel H pre. peel H pre.
        -- injection H as _ -> <-. auto.
        -- destruct pre; discriminate.
    + destruct o; simpl; intros H.
      * do 4 peel H pre. apply (IH _ _ _ _ _ H).
      * do 3 peel H pre. apply (IH _ _ _ _ _ H).
Qed.



Lemma scan_loop_cancelled iface addr cands sched h t :
  Done t = true -> ips addr = Some cands ->
  writes (scan_loop iface addr sched h t).1 = [] /\
  ((cands <> [] /\ sched <> []) \/ WokenDone ∈ sched ->
   (scan_loop iface addr sched h t).2 = Stopped).
Proof.
  intros Hd Hips. induction sched as [|[|] rest IH]; simpl.
  - split; [reflexivity|]. intros [[_ Hne] | Hin]; [congruence|inversion Hin].
  - split; reflexivity.
  - unfold writeARP. rewrite Hips.
    destruct cands as [|ip cands].
    + simpl. destruct (scan_loop iface addr rest h t) as [evs st]. simpl in *.
      destruct IH as [IHw IHs]. split; [exact IHw|].
      intros [[Hne _] | Hin]; [congruence|].
      apply IHs. right. inversion Hin; subst; assumption.
    + rewrite sweep_cancelled by assumption. simpl. split; reflexivity.
Qed.

End DriverFacts.

(** ** The coordinator *)

Section CoordinatorFacts.
Import Coordinator.

Lemma tally_nonneg (p : Task -> bool) (l : list Task) : 0 <= tally p l.
Proof. induction l as [|s l IH]; simpl; [lia|]. destruct (p s); lia. Qed.

Lemma tally_replicate_false (p : Task -> bool) (n : nat) (s : Task) :
  p s = false -> tally p (replicate n s) = 0.
Proof. intros Hp. induction n as [|n IH]; simpl; [reflexivity|]. rewrite Hp, IH. reflexivity. Qed.

Lemma tally_insert (p : Task -> bool) (l : list Task) (i : nat) (s s' : Task) :
  l !! i = Some s ->
  tally p (<[i := s']> l)
  = tally p l - (if p s then 1 else 0) + (if p s' then 1 else 0).
Proof.
  revert i. induction l as [|x l IH]; intros i Hi; [discriminate|].
  destruct i as [|i]; simpl in *.
  - injection Hi as ->. lia.
  - rewrite (IH i Hi). lia.
Qed.

Lemma tally_member (p : Task -> bool) (l : list Task) (i : nat) (s : Task) :
  l !! i = Some s -> p s = true -> 1 <= tally p l.
Proof.
  revert i. induction l as [|x l IH]; intros i Hi Hp; [discriminate|].
  destruct i as [|i]; simpl in *.
  - injection Hi as ->. rewrite Hp. pose proof (tally_nonneg p l). lia.
  - specialize (IH i Hi Hp). destruct (p x); lia.
Qed.

Lemma guard_Some (b : bool) (w w' : World) :
  guard b w = Some w' -> b = true /\ w' = w.
Proof. destruct b; simpl; [intros [= ->]; auto | discriminate]. Qed.

Lemma init_accounted (n : nat) : accounted (init n).
Proof.
  unfold accounted, init. simpl.
  rewrite !tally_replicate_false by reflexivity. split; [reflexivity|auto].
Qed.

Lemma init_dormant (n : nat) : dormant (init n).
Proof.
  intros i s Hi _. simpl in *.
  apply lookup_replicate in Hi as [_ Hi].
  apply lookup_replicate. auto.
Qed.

Lemma lookup_insert_Some (l : list Task) (i j : nat) (s x : Task) :
  <[i := s]> l !! j = Some x ->
  (i = j /\ x = s) \/ (i <> j /\ l !! j = Some x).
Proof.
  destruct (decide (i = j)) as [<- | Hne].
  - intros H. left. split; [reflexivity|].
    pose proof (lookup_lt_Some _ _ _ H) as Hlt. rewrite length_insert in Hlt.
    rewrite list_lookup_insert_eq in H by exact Hlt. congruence.
  - rewrite list_lookup_insert_ne by exact Hne. auto.
Qed.

Lemma step_dormant (a : Action) (w w' : World) :
  dormant w -> step a w = Some w' -> dormant w'.
Proof.
  intros Hdo. unfold step.
  destruct (panicked w); [discriminate|].
  destruct a as [| | |i|i|i|i|i]; intros Hs;
    try (apply guard_Some in Hs as [Hg ->]);
    try (injection Hs as <-);
    unfold driver_is, reader_is in *; intros j s Hj Hs; simpl in *;
    try (apply andb_true_iff in Hg as [Hg Hg']);
    try (apply bool_decide_eq_true in Hg);
    try (apply bool_decide_eq_true in Hg').
  - apply lookup_insert_Some in Hj as [[<- ->] | [Hne Hj]].
    + apply (Hdo _ _ Hg'). auto.
    + apply (Hdo _ _ Hj Hs).
  - apply (Hdo _ _ Hj Hs).
  - apply (Hdo _ _ Hj Hs).
  - apply lookup_insert_Some in Hj as [[<- ->] | [Hne Hj]].
    + destruct Hs; discriminate.
    + apply (Hdo _ _ Hj Hs).
  - apply lookup_insert_Some in Hj as [[<- ->] | [Hne Hj]].
    + destruct Hs; discriminate.
    + rewrite list_lookup_insert_ne by exact Hne. apply (Hdo _ _ Hj Hs).
  - apply lookup_insert_Some in Hj as [[<- ->] | [Hne Hj]].
    + destruct Hs; discriminate.
    + apply (Hdo _ _ Hj Hs).
  - apply lookup_insert_Some in Hj as [[<- ->] | [Hne Hj]].
    + destruct Hs; discriminate.
    + apply (Hdo _ _ Hj Hs).
  - pose proof (Hdo _ _ Hj Hs) as Hr.
    destruct (decide (i = j)) as [<- | Hne]; [congruence|].
    rewrite list_lookup_insert_ne by exact Hne. exact Hr.
Qed.

(** Every step keeps the account of the counter. *)
Lemma step_accounted (a : Action) (w w' : World) :
  dormant w -> accounted w -> step a w = Some w' -> accounted w'.
Proof.
  intros Hdo [Hwg Hrd]. unfold step.
  destruct (panicked w); [discriminate|].
  destruct a as [| | |i|i|i|i|i]; intros Hs;
    try (apply guard_Some in Hs as [Hg ->]);
    try (injection Hs as <-);
    unfold accounted, driver_is, reader_is in *; simpl in *;
    try (apply andb_true_iff in Hg as [Hg Hg']);
    try (apply bool_decide_eq_true in Hg);
    try (apply bool_decide_eq_true in Hg').
  - rewrite (tally_insert _ _ _ _ _ Hg'). simpl. split; [lia|assumption].
  - split; assumption.
  - split; [assumption|discriminate].
  - rewrite (tally_insert _ _ _ _ _ Hg). simpl. split; [lia|assumption].
  - rewrite (tally_insert _ _ _ _ _ Hg). simpl.
    pose proof (Hdo _ _ Hg (or_intror eq_refl)) as Hr.
    rewrite (tally_insert _ _ _ _ _ Hr). simpl.
    split; [lia|]. intros Hc. specialize (Hrd Hc). lia.
  - rewrite (tally_insert _ _ _ _ _ Hg). simpl. split; [lia|].
    rewrite Hg'. discriminate.
  - rewrite (tally_insert _ _ _ _ _ Hg). simpl. split; [lia|assumption].
  - rewrite (tally_insert _ _ _ _ _ Hg). simpl. split; [lia|].
    rewrite Hg'. discriminate.
Qed.

Lemma exec_accounted (sched : list Action) (w w' : World) :
  dormant w -> accounted w -> exec sched w = Some w' -> dormant w' /\ accounted w'.
Proof.
  revert w. induction sched as [|a sched IH]; intros w Hdo Hacc; simpl.
  - intros [= <-]. auto.
  - destruct (step a w) as [w1|] eqn:Hs; [|discriminate].
    apply IH; [eapply step_dormant | eapply step_accounted]; eassumption.
Qed.

End CoordinatorFacts.

(** ** Claims on the probe driver *)

Section DriverClaims.
Import Bytes Net Layers Enumerator Scanner Trace.
Context `{ext : External}.

(** C4: the driver polls the cancellation signal before every single
    write: each write it makes has, since the write before it, a poll of
    its own that found the signal not fired, and nothing is written after
    a poll that found it fired. When the signal has fired before a sweep
    starts, the driver writes nothing; it stops in that sweep if the sweep
    has a candidate to poll for, and otherwise as soon as its [select]
    takes the cancellation case. *)
Theorem driver_polls_before_each_write
    (iface : Interface) (addr : IPNet) (sched : list Woken) (h : Handle) (t : nat) :
  (forall pre d r post,
     (scan_loop iface addr sched h t).1 = pre ++ EvWrite d r :: post ->
     exists pre1 mid, pre = pre1 ++ EvPoll false :: mid /\
                      writes mid = [] /\ polls mid = []) /\
  (forall pre post,
     (scan_loop iface addr sched h t).1 = pre ++ EvPoll true :: post ->
     writes post = []) /\
  (forall cands, Done t = true -> ips addr = Some cands ->
     writes (scan_loop iface addr sched h t).1 = [] /\
     ((cands <> [] /\ sched <> []) \/ WokenDone ∈ sched ->
      (scan_loop iface addr sched h t).2 = Stopped)).
Proof.
  pose proof (scan_loop_guarded iface addr sched h t false) as Hg.
  split; [|split].
  - intros pre d r post Hev. rewrite Hev in Hg.
    destruct (guarded_write_polled _ _ _ _ _ Hg) as [[Hb _] | H];
      [discriminate | exact H].
  - intros pre post Hev. rewrite Hev in Hg.
    exact (guarded_after_fired _ _ _ Hg).
  - intros cands Hd Hips. apply scan_loop_cancelled; assumption.
Qed.

(** C5, amended: when the serialization of a candidate fails, the driver
    prints the error and still hands the buffer to the capture handle for
    that candidate, which is not skipped; when that write succeeds the
    sweep goes on with the remaining candidates. A sweep ends early only
    on cancellation or on a failed write, never on a serialization error
    itself. *)
Theorem serialization_failure_is_logged_and_written
    (iface : Interface) (eth : Ethernet) (arp : ARP)
    (pre : list IP) (ip : IP) (rest : list IP)
    (h : Handle) (buf : list byte) (t : nat)
    (e : error) (buf' : list byte) (h' : Handle) (werr : option error) :
  sw_err (sweep iface eth arp pre h buf t) = None ->
  Done (sw_time (sweep iface eth arp pre h buf t)) = false ->
  SerializeLayers (sw_buf (sweep iface eth arp pre h buf t)) opts eth
                  (set_DstProtAddress arp ip) = (buf', Some e) ->
  WritePacketData (sw_handle (sweep iface eth arp pre h buf t)) buf' = (h', werr) ->
  sweep iface eth arp (pre ++ ip :: rest) h buf t
  = prepend (sw_events (sweep iface eth arp pre h buf t)
             ++ [EvPoll false;
                 EvSerialize eth (set_DstProtAddress arp ip) (Some e);
                 EvLog (LogWarn e);
                 EvWrite buf' werr])
      (match werr with
       | Some e' =>
           mkSweep [] h' buf' (S (sw_time (sweep iface eth arp pre h buf t))) (Some e')
       | None =>
           sweep iface eth arp rest h' buf'
                 (S (sw_time (sweep iface eth arp pre h buf t)))
       end) /\
  (forall cands e',
     sw_err (sweep iface eth arp cands h buf t) = Some e' ->
     (e' = Canceled /\
      exists evs, sw_events (sweep iface eth arp cands h buf t)
                  = evs ++ [EvPoll true; EvLog (LogStopWriter (Name iface))]) \/
     (exists evs d, sw_events (sweep iface eth arp cands h buf t)
                    = evs ++ [EvWrite d (Some e')])).
Proof.
  intros Hpre Hd Hser Hw. split.
  - rewrite sweep_app, Hpre. simpl. rewrite Hd, Hser, Hw.
    destruct werr as [e'|].
    + unfold prepend. simpl. rewrite app_nil_r. reflexivity.
    + rewrite sweep_arp_irrelevant, prepend_prepend. reflexivity.
  - intros cands e' Herr. apply (sweep_err_cause _ _ _ _ _ _ _ _ Herr).
Qed.

(** A failed write is the last thing a sweep does, so the remaining
    candidates are neither polled for, serialized nor written, and
    [writeARP] returns the error of that write; [scanIface] then prints
    it, closes the handle and returns without looking at its [select]
    again, so nothing is retried. *)
Theorem write_failure_aborts_the_sweep
    (iface : Interface) (addr : IPNet) (h : Handle) (t : nat) :
  (forall eth arp cands buf pre d e post,
     sw_events (sweep iface eth arp cands h buf t)
       = pre ++ EvWrite d (Some e) :: post ->
     post = [] /\ sw_err (sweep iface eth arp cands h buf t) = Some e) /\
  (forall sw e sched,
     writeARP iface addr h t = Some sw -> sw_err sw = Some e ->
     scan_loop iface addr (WokenTick :: sched) h t
     = (sw_events sw ++ [EvLog (LogWriteError (Name iface) e); EvClose], Stopped)).
Proof.
  split.
  - intros eth arp cands buf pre d e post H.
    apply (sweep_failed_write_last _ _ _ _ _ _ _ _ _ _ _ H).
  - intros sw e sched Hw He. simpl. rewrite Hw, He. reflexivity.
Qed.


(** C10, amended: in a sweep every serialization, failed or not, is
    followed by exactly one write, and the write carries the contents the
    shared buffer has after that serialization, whatever the serializer
    left in it; a sweep that runs to its end has made one write for each
    candidate. *)
Theorem failed_serialization_still_written
    (iface : Interface) (addr : IPNet) (h : Handle) (t : nat) (sw : Sweep) :
  writeARP iface addr h t = Some sw ->
  length (writes (sw_events sw)) = length (serialized (sw_events sw)) /\
  zip (writes (sw_events sw)).*1 (serialized (sw_events sw)).*2
    = replay NewSerializeBuffer (serialized (sw_events sw)).*1 /\
  (forall cands, ips addr = Some cands -> sw_err sw = None ->
     length (writes (sw_events sw)) = length cands).
Proof.
  unfold writeARP. destruct (ips addr) as [cands|]; [|discriminate].
  intros [= <-].
  destruct (sweep_replay iface (eth_of iface) (arp_of iface addr) cands h
                         NewSerializeBuffer t) as [Hlen Hzip].
  split; [exact Hlen|]. split; [exact Hzip|].
  intros cands' [= <-] Herr.
  apply (sweep_complete _ _ _ _ _ _ _ Herr).
Qed.

End DriverClaims.


Section DriverExamples.
Import Bytes Net Layers Enumerator Scanner Trace Lab.

Lemma driver_polls_before_each_write_witness :
  @Done (lab always never none) 0%nat = true /\
  ips net30 = Some [ip8; ip9; ip10] /\
  writes (@scan_loop (lab always never none) eth0 net30 [WokenTick] 0%nat 0%nat).1 = [] /\
  (@scan_loop (lab always never none) eth0 net30 [WokenTick] 0%nat 0%nat).2 = Stopped.
Proof.
  assert (Hd : @Done (lab always never none) 0%nat = true) by reflexivity.
  assert (Hips : ips net30 = Some [ip8; ip9; ip10]) by (vm_compute; reflexivity).
  destruct (@driver_polls_before_each_write (lab always never none)
              eth0 net30 [WokenTick] 0%nat 0%nat) as (_ & _ & H).
  destruct (H [ip8; ip9; ip10] Hd Hips) as [Hw Hs].
  split; [exact Hd|]. split; [exact Hips|]. split; [exact Hw|].
  apply Hs. left. split; discriminate.
Defined.

(** C5, as stated, fails: on the lab host with a serializer that gives up
    on 192.168.1.9, the sweep over 192.168.1.8 to 192.168.1.10 still
    makes a write for 192.168.1.9, and that write sends the frame for
    192.168.1.8 a second time. *)
Lemma failed_candidate_is_not_skipped :
  let sw := @sweep (lab never never only9) eth0 (@eth_of eth0)
                   (@arp_of eth0 net30) [ip8; ip9; ip10] 0%nat [] 0%nat in
  (serialized (sw_events sw)).*2 = [None; Some "serializer gave up"; None] /\
  logged (sw_events sw) = [LogWarn "serializer gave up"] /\
  writes (sw_events sw) = [(frame0 ip8, None); (frame0 ip8, None); (frame0 ip10, None)].
Proof. vm_compute. repeat split; reflexivity. Qed.

Lemma serialization_failure_is_logged_and_written_witness :
  writes (sw_events (@sweep (lab never never only9) eth0 (@eth_of eth0)
                            (@arp_of eth0 net30) ([ip8] ++ ip9 :: [ip10])
                            0%nat [] 0%nat))
  = [(frame0 ip8, None); (frame0 ip8, None); (frame0 ip10, None)].
Proof.
  destruct (@serialization_failure_is_logged_and_written
              (lab never never only9) eth0 (@eth_of eth0) (@arp_of eth0 net30)
              [ip8] ip9 [ip10] 0%nat [] 0%nat
              "serializer gave up" (frame0 ip8) 2%nat None) as [H _].
  - reflexivity.
  - reflexivity.
  - vm_compute. reflexivity.
  - vm_compute. reflexivity.
  - rewrite H. vm_compute. reflexivity.
Defined.

Lemma write_failure_aborts_the_sweep_witness :
  sw_err (@sweep (lab never at_second none) eth0 (@eth_of eth0)
                 (@arp_of eth0 net30) [ip8; ip9; ip10] 0%nat [] 0%nat)
  = Some "send: Network is down" /\
  (@scan_loop (lab never at_second none) eth0 net30 [WokenTick; WokenTick]
              0%nat 0%nat).2 = Stopped /\
  writes (@scan_loop (lab never at_second none) eth0 net30 [WokenTick; WokenTick]
                     0%nat 0%nat).1
  = [(frame0 ip8, None); (frame0 ip9, Some "send: Network is down")].
Proof.
  destruct (@write_failure_aborts_the_sweep (lab never at_second none)
              eth0 net30 0%nat 0%nat) as (Hlast & Hstop).
  set (sw := @sweep (lab never at_second none) eth0 (@eth_of eth0)
                    (@arp_of eth0 net30) [ip8; ip9; ip10] 0%nat [] 0%nat).
  assert (Hev : sw_events sw
                = [EvPoll false;
                   EvSerialize (@eth_of eth0)
                     (set_DstProtAddress (@arp_of eth0 net30) ip8) None;
                   EvWrite (frame0 ip8) None;
                   EvPoll false;
                   EvSerialize (@eth_of eth0)
                     (set_DstProtAddress (@arp_of eth0 net30) ip9) None]
                  ++ EvWrite (frame0 ip9) (Some "send: Network is down") :: [])
    by (vm_compute; reflexivity).
  destruct (Hlast _ _ _ _ _ _ _ _ Hev) as [_ He].
  assert (Hw : @writeARP (lab never at_second none) eth0 net30 0%nat 0%nat = Some sw)
    by (vm_compute; reflexivity).
  split; [exact He|].
  rewrite (Hstop sw _ [WokenTick] Hw He).
  split; [reflexivity|]. vm_compute. reflexivity.
Defined.


(** C10, as stated, fails: with a serializer that clears the buffer before
    it writes, as gopacket's does, the write for the candidate 192.168.1.9,
    whose serialization fails, carries the empty buffer and not the bytes
    left over from the serialization of 192.168.1.8. *)
Lemma failed_candidate_writes_cleared_buffer :
  let sw := @sweep (lab_clearing never never only9) eth0 (@eth_of eth0)
                   (@arp_of eth0 net30) [ip8; ip9; ip10] 0%nat [] 0%nat in
  (serialized (sw_events sw)).*2 = [None; Some "serializer gave up"; None] /\
  writes (sw_events sw) = [(frame0 ip8, None); ([], None); (frame0 ip10, None)] /\
  frame0 ip8 <> [].
Proof. vm_compute. repeat split; try reflexivity. discriminate. Qed.

Lemma failed_serialization_still_written_witness :
  exists sw,
    @writeARP (lab_clearing never never only9) eth0 net30 0%nat 0%nat = Some sw /\
    length (writes (sw_events sw)) = length (serialized (sw_events sw)) /\
    length (writes (sw_events sw)) = 3%nat.
Proof.
  eexists. split; [vm_compute; reflexivity|].
  match goal with |- context [sw_events ?s] => set (sw := s) end.
  destruct (@failed_serialization_still_written (lab_clearing never never only9)
              eth0 net30 0%nat 0%nat sw ltac:(vm_compute; reflexivity))
    as (Hlen & _ & Hall).
  split; [exact Hlen|].
  apply (Hall [ip8; ip9; ip10]); vm_compute; reflexivity.
Defined.

End DriverExamples.

(** ** Claims on the coordinator *)

Section CoordinatorClaims.
Import Net Enumerator Scanner Coordinator.

(** C2 does not hold of the code: with two interfaces whose handles open,
    [run] starts four goroutines but counts only the two [scanIface] ones
    in its WaitGroup, while all four call [wg.Done()]. Once the signal
    has fired and the two [readARP] goroutines have returned, the counter
    is back at zero and [wg.Wait()] lets [run] return while both
    [scanIface] goroutines are still in their loops. *)
Theorem run_returns_before_tasks_stop :
  exists w,
    exec [RunSpawn; RunSpawn; SetupDone 0; SetupDone 1; Cancel;
          ReaderDone 0; ReaderDone 1; RunWait] (init 2) = Some w /\
    spawned w = 4 /\
    returned w = true /\
    drivers w = [Looping; Looping] /\
    readers w = [Returned; Returned] /\
    live w = 2 /\
    wg w = 0.
Proof. eexists. repeat split. Qed.

(** In the same run, the third goroutine to return takes the counter
    below zero, which makes [sync] panic. *)
Lemma third_return_panics :
  exists w,
    exec [RunSpawn; RunSpawn; SetupDone 0; SetupDone 1; Cancel;
          ReaderDone 0; ReaderDone 1; DriverDone 0] (init 2) = Some w /\
    wg w = -1 /\ panicked w = true.
Proof. eexists. repeat split. Qed.

Context `{ext : External}.

Lemma find_addr_no_ipv4 (addrs : list Addr) (addr : IPNet) :
  Forall (fun a => match a with
                   | AddrIPNet n => To4 (ipnet_IP n) = None
                   | AddrIPAddr _ => True
                   end) addrs ->
  find_addr addrs addr = Some addr.
Proof.
  induction 1 as [|a addrs Ha _ IH]; [reflexivity|].
  destruct a as [n|ip]; simpl; [rewrite Ha|]; exact IH.
Qed.

(** C8, amended: an interface with no bound address is skipped without
    any line being printed; one whose address lookup or whose capture
    session fails is skipped with the error printed. In each case
    [scanIface] returns before it starts anything, [run] returns no
    error, and every eligible interface has its own [scanIface]. *)
Theorem setup_failure_skips_the_interface
    (iface : Interface) (sched : Interface -> list Woken) :
  (Addrs iface = Ok [] -> scanIface iface (sched iface) = Skipped []) /\
  (forall err, Addrs iface = Err err ->
     scanIface iface (sched iface) = Skipped [LogAddrsFailed (Name iface) err]) /\
  (forall addrs addr err,
     Addrs iface = Ok addrs -> addrs <> [] ->
     find_addr addrs zeroIPNet = Some addr ->
     OpenLive (Name iface) = Err err ->
     scanIface iface (sched iface) = Skipped [LogOpenFailed err]) /\
  (forall ifaces, getInterfaces = Ok ifaces ->
     (run sched).1 = None /\
     forall other, other ∈ ifaces ->
       (other, scanIface other (sched other)) ∈ (run sched).2).
Proof.
  unfold scanIface. split; [|split; [|split]].
  - intros ->. reflexivity.
  - intros err ->. reflexivity.
  - intros addrs addr err -> Hne -> ->.
    destruct addrs; [contradiction|reflexivity].
  - intros ifaces Hi. unfold run. rewrite Hi. split; [reflexivity|].
    intros other Hin. simpl.
    apply (list_elem_of_fmap_2 (fun i => (i, scanIface i (sched i)))) in Hin.
    exact Hin.
Qed.

(** C9: [ips] panics exactly when the address or the mask it is given
    has fewer than four bytes. [scanIface] gives it such an argument when
    the interface has addresses but none of them is IPv4: the search
    leaves the zero [IPNet], the handle is opened and [readARP] started
    all the same, and the first sweep panics in [ips]. *)
Theorem ips_panics_without_ipv4_address :
  (forall n, ips n = None <->
     (length (ipnet_IP n) < 4)%nat \/ (length (ipnet_Mask n) < 4)%nat) /\
  (forall iface addrs h sched,
     Addrs iface = Ok addrs -> addrs <> [] ->
     Forall (fun a => match a with
                      | AddrIPNet n => To4 (ipnet_IP n) = None
                      | AddrIPAddr _ => True
                      end) addrs ->
     OpenLive (Name iface) = Ok h ->
     find_addr addrs zeroIPNet = Some zeroIPNet /\
     ips zeroIPNet = None /\
     scanIface iface (WokenTick :: sched)
     = Scanned zeroIPNet [EvLog (LogScanning (Name iface)); EvSpawnReader]
               Panicked).
Proof.
  split.
  - intros n. unfold ips. rewrite <- !Uint32_None.
    destruct (Bytes.Uint32 (ipnet_IP n)), (Bytes.Uint32 (ipnet_Mask n));
      split; intros H; try discriminate; auto; destruct H; discriminate.
  - intros iface addrs h sched Ha Hne Hno Ho.
    pose proof (find_addr_no_ipv4 addrs zeroIPNet Hno) as Hf.
    split; [exact Hf|]. split; [reflexivity|].
    unfold scanIface. rewrite Ha, Hf, Ho.
    destruct addrs; [contradiction|reflexivity].
Qed.

End CoordinatorClaims.

Section CoordinatorExamples.
Import Net Enumerator Scanner Lab.

(** C6 does not hold of the code. On a host with one interface whose first
    write fails, the sweep is aborted and [scanIface] returns without a
    retry, but its deferred [wg.Done()] takes the counter of the WaitGroup,
    in which the [readARP] of the interface is not counted, to zero:
    [wg.Wait()] lets [run] return, and [main] with it, while [readARP] is
    still running, so the failure ends the whole process. When the
    cancellation has fired and [readARP] has returned already, the same
    return takes the counter below zero and [sync] panics. *)
Theorem write_failure_ends_the_scan :
  @scan_loop (lab never always none) eth0 net30 [WokenTick; WokenTick] 0%nat 0%nat
  = ([EvPoll false;
      EvSerialize (@eth_of eth0)
        (Layers.set_DstProtAddress (@arp_of eth0 net30) ip8) None;
      EvWrite (frame0 ip8) (Some "send: Network is down");
      EvLog (LogWriteError "eth0" "send: Network is down");
      EvClose], Stopped) /\
  (exists w,
     Coordinator.exec
       [Coordinator.RunSpawn; Coordinator.SetupDone 0;
        Coordinator.DriverFails 0; Coordinator.RunWait]
       (Coordinator.init 1) = Some w /\
     Coordinator.returned w = true /\
     Coordinator.drivers w = [Coordinator.Returned] /\
     Coordinator.readers w = [Coordinator.Looping] /\
     Coordinator.panicked w = false) /\
  (exists w,
     Coordinator.exec
       [Coordinator.RunSpawn; Coordinator.SetupDone 0; Coordinator.Cancel;
        Coordinator.ReaderDone 0; Coordinator.DriverFails 0]
       (Coordinator.init 1) = Some w /\
     Coordinator.wg w = -1 /\
     Coordinator.panicked w = true).
Proof.
  split; [vm_compute; reflexivity|].
  split; eexists; repeat split.
Qed.

(** C8, as stated, fails: [eth1] of the lab host has no address, and
    [scanIface] returns for it without printing anything. *)
Lemma no_address_is_skipped_silently :
  @Addrs (lab never never none) eth1 = Ok [] /\
  forall sched, @scanIface (lab never never none) eth1 sched = Skipped [].
Proof. split; [reflexivity|]. intros sched. reflexivity. Qed.

Lemma setup_failure_skips_the_interface_witness :
  @scanIface (lab never never none) eth1 [WokenDone] = Skipped [] /\
  @scanIface (lab never never none) eth3 [WokenDone]
  = Skipped [LogOpenFailed "eth3: You don't have permission to capture on that device"] /\
  (@run (lab never never none) (fun _ => [WokenDone])).1 = None /\
  (eth0, @scanIface (lab never never none) eth0 [WokenDone])
    ∈ (@run (lab never never none) (fun _ => [WokenDone])).2.
Proof.
  destruct (@setup_failure_skips_the_interface (lab never never none) eth1
              (fun _ => [WokenDone])) as (Hnone & _ & _ & Hrun).
  destruct (@setup_failure_skips_the_interface (lab never never none) eth3
              (fun _ => [WokenDone])) as (_ & _ & Hopen & _).
  split; [apply Hnone; reflexivity|].
  split.
  - apply (Hopen [AddrIPNet net30] net30); try reflexivity. discriminate.
  - destruct (Hrun [eth0; eth1; eth2; eth3]) as [Herr Hall];
      [vm_compute; reflexivity|].
    split; [exact Herr|]. apply Hall. left.
Defined.

Lemma ips_panics_without_ipv4_address_witness :
  ips zeroIPNet = None /\
  @scanIface (lab never never none) eth2 [WokenTick; WokenDone]
  = Scanned zeroIPNet [EvLog (LogScanning "eth2"); EvSpawnReader] Panicked.
Proof.
  destruct (@ips_panics_without_ipv4_address (lab never never none)) as [Hiff Hreach].
  split.
  - apply Hiff. left. simpl. lia.
  - destruct (Hreach eth2 [AddrIPNet linklocal6] 0%nat [WokenDone]) as (_ & _ & H).
    + reflexivity.
    + discriminate.
    + constructor; [reflexivity|constructor].
    + reflexivity.
    + exact H.
Defined.

End CoordinatorExamples.

(* ===================================================================== *)
(** * Further properties of the code *)

(** ** The enumerator on any mask *)

Section EnumeratorMore.
Import Bytes Net Enumerator.

Lemma PutUint32_length (v : Z) : length (PutUint32 v) = 4%nat.
Proof. reflexivity. Qed.

(** The bits of a CIDR mask: [land] with it clears the low [32 - ones]
    bits of a 32-bit number. *)
Lemma land_CIDRMask (v ones : Z) :
  0 <= v < 2 ^ 32 -> 0 <= ones <= 32 ->
  Z.land v (CIDRMask ones) = v - v mod 2 ^ (32 - ones).
Proof.
  intros Hv Hones. unfold CIDRMask.
  set (k := 32 - ones). assert (Hk : 0 <= k <= 32) by (unfold k; lia).
  assert (Hmask : 2 ^ 32 - 2 ^ k = Z.ones (32 - k) * 2 ^ k).
  { rewrite Z.ones_equiv, <- Z.sub_1_r, Z.mul_sub_distr_r, <- Z.pow_add_r by lia.
    replace (32 - k + k) with 32 by lia. lia. }
  assert (Hr : v - v mod 2 ^ k = Z.ldiff v (Z.ones k)).
  { rewrite Z.ldiff_ones_r, Z.shiftr_div_pow2, Z.shiftl_mul_pow2 by lia.
    pose proof (Z.div_mod v (2 ^ k) ltac:(apply Z.pow_nonzero; lia)). lia. }
  rewrite Hmask, Hr. apply Z.bits_inj'. intros n Hn.
  rewrite Z.land_spec, Z.ldiff_spec.
  destruct (Z_lt_dec n k) as [Hlt | Hge].
  - rewrite Z.mul_pow2_bits_low, Z.ones_spec_low by lia.
    destruct (Z.testbit v n); reflexivity.
  - rewrite Z.mul_pow2_bits, (Z.ones_spec_high k) by lia.
    destruct (Z_lt_dec n 32) as [Hlt32 | Hge32].
    + rewrite Z.ones_spec_low by lia. reflexivity.
    + rewrite Z.ones_spec_high by lia.
      rewrite <- (Z.mod_small v (2 ^ 32)) by lia.
      rewrite Z.mod_pow2_bits_high by lia. reflexivity.
Qed.

(** Whatever the mask, [ips] returns [0xffffffff - mask] addresses of four
    bytes each, the [k]-th being [addr & mask] plus [k]; they are all
    different, none is below [addr & mask] and none is 255.255.255.255. *)
Theorem ips_any_mask (n : IPNet) (addr mask : Z) :
  Uint32 (ipnet_IP n) = Some addr ->
  Uint32 (ipnet_Mask n) = Some mask ->
  exists out,
    ips n = Some out /\
    Z.of_nat (length out) = MaxUint32 - mask /\
    (forall k ip, out !! k = Some ip ->
       ip = PutUint32 (Z.land addr mask + Z.of_nat k) /\
       Uint32 ip = Some (Z.land addr mask + Z.of_nat k)) /\
    Forall (fun ip => length ip = 4%nat) out /\
    (forall ip v, ip ∈ out -> Uint32 ip = Some v ->
       Z.land addr mask <= v < MaxUint32) /\
    NoDup out.
Proof.
  intros Ha Hm. pose proof (ips_general n addr mask Ha Hm) as Hips.
  apply Uint32_range in Ha, Hm.
  pose proof (land_le_r addr mask ltac:(lia)) as Hle.
  assert (Hbase : 0 <= Z.land addr mask) by (apply Z.land_nonneg; lia).
  change (2 ^ 32) with 4294967296 in *.
  set (base := Z.land addr mask) in *.
  assert (Hget : forall k ip,
            (PutUint32 <$> seqZ base (MaxUint32 - mask)) !! k = Some ip ->
            ip = PutUint32 (base + Z.of_nat k) /\
            Uint32 ip = Some (base + Z.of_nat k) /\
            Z.of_nat k < MaxUint32 - mask).
  { intros k ip Hk. rewrite list_lookup_fmap in Hk.
    destruct (seqZ base (MaxUint32 - mask) !! k) as [v|] eqn:Ev; [|discriminate].
    apply lookup_seqZ in Ev as [-> Hlt]. injection Hk as <-.
    split; [reflexivity|]. split; [|exact Hlt].
    apply Uint32_PutUint32. unfold MaxUint32 in *. lia. }
  eexists. split; [exact Hips|]. split; [|split; [|split; [|split]]].
  - rewrite length_fmap, length_seqZ. unfold MaxUint32. lia.
  - intros k ip Hk. destruct (Hget k ip Hk) as (H1 & H2 & _). auto.
  - apply Forall_fmap, Forall_forall. intros v _. reflexivity.
  - intros ip v Hin Hv. apply list_elem_of_lookup in Hin as [k Hk].
    destruct (Hget k ip Hk) as (_ & H2 & H3).
    rewrite H2 in Hv. injection Hv as <-. unfold MaxUint32 in *. lia.
  - apply NoDup_fmap_2_strong; [|apply NoDup_seqZ].
    intros x y Hx Hy Heq. apply elem_of_seqZ in Hx, Hy.
    assert (Hux : Uint32 (PutUint32 x) = Some x)
      by (apply Uint32_PutUint32; unfold MaxUint32 in *; lia).
    assert (Huy : Uint32 (PutUint32 y) = Some y)
      by (apply Uint32_PutUint32; unfold MaxUint32 in *; lia).
    rewrite Heq in Hux. congruence.
Qed.

Lemma ips_any_mask_witness :
  exists out,
    ips (mkIPNet [xc0; xa8; x01; x0a] [xff; xff; xff; xfd]) = Some out /\
    Z.of_nat (length out) = 2 /\
    NoDup out.
Proof.
  destruct (ips_any_mask (mkIPNet [xc0; xa8; x01; x0a] [xff; xff; xff; xfd])
              0xc0a8010a 0xfffffffd eq_refl eq_refl)
    as (out & Hips & Hlen & _ & _ & _ & Hnd).
  exists out. split; [exact Hips|]. split; [exact Hlen|exact Hnd].
Defined.

(** With a CIDR mask every address [ips] returns lies in the subnet of the
    interface: masked, it gives the same network address as the
    interface's own address. *)
Theorem ips_cidr_within_subnet (n : IPNet) (addr ones : Z) (out : list IP) (ip : IP) (v : Z) :
  Uint32 (ipnet_IP n) = Some addr ->
  Uint32 (ipnet_Mask n) = Some (CIDRMask ones) ->
  0 <= ones <= 32 ->
  ips n = Some out -> ip ∈ out -> Uint32 ip = Some v ->
  Z.land v (CIDRMask ones) = Z.land addr (CIDRMask ones).
Proof.
  intros Ha Hm Hones Hips Hin Hv.
  rewrite (ips_general n addr _ Ha Hm) in Hips. injection Hips as <-.
  apply list_elem_of_fmap in Hin as (x & -> & Hx). apply elem_of_seqZ in Hx.
  apply Uint32_range in Ha. pose proof (Uint32_range _ _ Hm) as Hmr.
  pose proof (land_le_r addr (CIDRMask ones) ltac:(lia)) as Hle.
  assert (Hbase : 0 <= Z.land addr (CIDRMask ones)) by (apply Z.land_nonneg; lia).
  assert (Hpow : 0 < 2 ^ (32 - ones)) by (apply Z.pow_pos_nonneg; lia).
  assert (Hx32 : 0 <= x < 2 ^ 32).
  { unfold MaxUint32, CIDRMask in *. change (2 ^ 32) with 4294967296 in *. lia. }
  rewrite Uint32_PutUint32 in Hv by exact Hx32. injection Hv as <-.
  rewrite (land_CIDRMask x ones Hx32 Hones).
  rewrite (land_CIDRMask addr ones Ha Hones) in *.
  set (p := 2 ^ (32 - ones)) in *.
  assert (Hq : addr - addr mod p = p * (addr / p)).
  { pose proof (Z.div_mod addr p ltac:(lia)). lia. }
  assert (Hj : 0 <= x - (addr - addr mod p) < p).
  { unfold MaxUint32, CIDRMask in Hx. fold p in Hx.
    change (2 ^ 32) with 4294967296 in *. lia. }
  assert (Hxm : x mod p = x - (addr - addr mod p)).
  { replace x with ((x - (addr - addr mod p)) + (addr / p) * p) at 1 by lia.
    rewrite Z.mod_add by lia. apply Z.mod_small. exact Hj. }
  lia.
Qed.

Lemma ips_cidr_within_subnet_witness :
  Z.land 0xc0a80109 (CIDRMask 30) = Z.land 0xc0a8010a (CIDRMask 30).
Proof.
  apply (ips_cidr_within_subnet
           (mkIPNet [xc0; xa8; x01; x0a] [xff; xff; xff; xfc]) 0xc0a8010a 30
           [[xc0; xa8; x01; x08]; [xc0; xa8; x01; x09]; [xc0; xa8; x01; x0a]]
           [xc0; xa8; x01; x09] 0xc0a80109).
  - reflexivity.
  - reflexivity.
  - lia.
  - vm_compute. reflexivity.
  - right. left.
  - reflexivity.
Defined.

End EnumeratorMore.

(** ** The listener over a whole run *)

Section ListenerMore.
Import Bytes Net Layers Scanner.

(** Every discovery [readARP] prints comes from a frame it received: an ARP
    reply whose source addresses are the ones printed; the hardware address
    it prints is never the interface's own, whatever frames arrive. *)
Theorem readARP_reports_only_foreign_replies
    (iface : Interface) (inbox : list Received) (name : string) (ip : IP) (hw : HardwareAddr) :
  LogFound name ip hw ∈ (readARP iface inbox).1 ->
  name = Name iface /\ hw <> HardwareAddress iface /\
  exists packet arp,
    RecvPacket packet ∈ inbox /\ ARPLayer packet = Some arp /\
    Operation arp = ARPReply /\
    SourceProtAddress arp = ip /\ SourceHwAddress arp = hw.
Proof.
  induction inbox as [|[|packet] rest IH]; simpl.
  - intros H. inversion H.
  - intros H. apply list_elem_of_singleton in H. discriminate.
  - destruct (readARP iface rest) as [log stopped]. simpl in *.
    intros H. apply elem_of_app in H as [H | H].
    + unfold readARP_packet, Equal in H.
      destruct (ARPLayer packet) as [arp|] eqn:Ea; [|inversion H].
      destruct (Z.eqb_spec (Operation arp) ARPReply) as [Hop|Hop];
        simpl in H; [|inversion H].
      case_bool_decide as Hhw; [inversion H|].
      apply list_elem_of_singleton in H. injection H as -> -> ->.
      split; [reflexivity|]. split; [congruence|].
      exists packet, arp. repeat split; try assumption. left.
    + destruct (IH H) as (Hn & Hne & p & arp & Hin & Hrest).
      split; [exact Hn|]. split; [exact Hne|].
      exists p, arp. split; [right; exact Hin|exact Hrest].
Qed.

Lemma readARP_reports_only_foreign_replies_witness :
  [x02; x00; x00; x00; x00; x02] <> Lab.mac0.
Proof.
  apply (readARP_reports_only_foreign_replies Lab.eth0
           [RecvPacket [LayerARP (mkARP LinkTypeEthernet EthernetTypeIPv4 6 4 ARPReply
                                        [x02; x00; x00; x00; x00; x02] Lab.ip9
                                        Lab.mac0 Lab.ip10)];
            RecvDone]
           "eth0" Lab.ip9 [x02; x00; x00; x00; x00; x02]).
  vm_compute. left.
Defined.

(** [readARP] handles the frames up to the first time its [select] takes
    the cancellation case, prints the stop notice and returns: frames that
    come after are never looked at. Until then it has not returned. *)
Theorem readARP_stops_at_cancellation
    (iface : Interface) (packets : list Packet) (rest : list Received) :
  readARP iface ((RecvPacket <$> packets) ++ RecvDone :: rest)
  = ((packets ≫= readARP_packet iface) ++ [LogStopReader (Name iface)], true) /\
  readARP iface (RecvPacket <$> packets)
  = (packets ≫= readARP_packet iface, false).
Proof.
  induction packets as [|p packets [IH1 IH2]].
  - split; reflexivity.
  - change (readARP iface ((RecvPacket <$> p :: packets) ++ RecvDone :: rest))
      with (let '(log, stopped) :=
              readARP iface ((RecvPacket <$> packets) ++ RecvDone :: rest) in
            (readARP_packet iface p ++ log, stopped)).
    change (readARP iface (RecvPacket <$> p :: packets))
      with (let '(log, stopped) := readARP iface (RecvPacket <$> packets) in
            (readARP_packet iface p ++ log, stopped)).
    rewrite IH1, IH2. simpl. split; rewrite ?app_assoc; reflexivity.
Qed.

End ListenerMore.

(** ** The driver and the setup of an interface *)

Section ScannerMore.
Import Bytes Net Layers Enumerator Scanner Trace.
Context `{ext : External}.

Ltac sweep_cases :=
  simpl;
  destruct (Done _) eqn:?;
  [| destruct (SerializeLayers _ _ _ _) as [? ?] eqn:?;
     destruct (WritePacketData _ _) as [? [?|]] eqn:? ].

Lemma To4_length (ip ip4 : IP) : To4 ip = Some ip4 -> length ip4 = 4%nat.
Proof.
  unfold To4. destruct (Nat.eqb_spec (length ip) 4) as [H4|_].
  - intros [= <-]. exact H4.
  - destruct (Nat.eqb_spec (length ip) 16) as [H16|_]; [|discriminate].
    simpl. destruct (_ && _ && _); [|discriminate].
    intros [= <-]. rewrite length_take, length_drop. lia.
Qed.

Lemma last4_length (m m' : IPMask) :
  last4 m = Some m' -> length m' = 4%nat /\ m' `suffix_of` m.
Proof.
  unfold last4. destruct (Nat.ltb_spec (length m) 4) as [|Hge]; [discriminate|].
  intros [= <-]. split; [rewrite length_drop; lia | apply suffix_drop].
Qed.

(** The search of [scanIface] takes the first address that is an
    [*net.IPNet] with an IPv4 address, whatever comes after it: its four
    address bytes and the last four bytes of its mask. It panics instead
    when that mask has fewer than four bytes. *)
Theorem find_addr_takes_first_ipv4
    (pre : list Addr) (ipnet : IPNet) (post : list Addr) (ip4 : IP) (start : IPNet) :
  Forall not_ipv4 pre ->
  To4 (ipnet_IP ipnet) = Some ip4 ->
  length ip4 = 4%nat /\
  (forall m, last4 (ipnet_Mask ipnet) = Some m ->
     find_addr (pre ++ AddrIPNet ipnet :: post) start = Some (mkIPNet ip4 m) /\
     length m = 4%nat /\ m `suffix_of` ipnet_Mask ipnet) /\
  ((length (ipnet_Mask ipnet) < 4)%nat ->
     find_addr (pre ++ AddrIPNet ipnet :: post) start = None).
Proof.
  intros Hpre Hto4.
  assert (Hfind : find_addr (pre ++ AddrIPNet ipnet :: post) start
                  = match last4 (ipnet_Mask ipnet) with
                    | Some m => Some (mkIPNet ip4 m)
                    | None => None
                    end).
  { induction Hpre as [|a pre Ha _ IH]; simpl.
    - rewrite Hto4. reflexivity.
    - destruct a as [n|ip]; simpl in Ha; [rewrite Ha|]; exact IH. }
  split; [exact (To4_length _ _ Hto4)|]. split.
  - intros m Hm. rewrite Hfind, Hm. split; [reflexivity|].
    exact (last4_length _ _ Hm).
  - intros Hshort. rewrite Hfind. unfold last4.
    destruct (Nat.ltb_spec (length (ipnet_Mask ipnet)) 4); [reflexivity|lia].
Qed.




End ScannerMore.

Section DriverMore.
Import Bytes Net Layers Enumerator Scanner Trace.
Context `{ext : External}.

Ltac sweep_cases :=
  simpl;
  destruct (Done _) eqn:?;
  [| destruct (SerializeLayers _ _ _ _) as [? ?] eqn:?;
     destruct (WritePacketData _ _) as [? [?|]] eqn:? ].

Lemma sweep_targets iface eth arp cands h buf t :
  ((fun c => DstProtAddress c.1.2)
     <$> serialized (sw_events (sweep iface eth arp cands h buf t)))
    `prefix_of` cands /\
  (sw_err (sweep iface eth arp cands h buf t) = None ->
   (fun c => DstProtAddress c.1.2)
     <$> serialized (sw_events (sweep iface eth arp cands h buf t)) = cands).
Proof.
  revert arp h buf t. induction cands as [|ip rest IH]; intros arp h buf t.
  - split; [apply prefix_nil|reflexivity].
  - sweep_cases; simpl;
      rewrite ?serialized_app, ?serialized_warning; simpl.
    + split; [apply prefix_nil|discriminate].
    + split; [apply prefix_cons, prefix_nil|discriminate].
    + destruct (IH (set_DstProtAddress arp ip) h0 l (S t)) as [IHp IHe].
      split; [apply prefix_cons; exact IHp|].
      intros Herr. f_equal. exact (IHe Herr).
Qed.

(** In a sweep the requests are built in the order in which [ips] gave the
    candidates, without gaps: the targets of the serializations are a
    prefix of the candidate list, the whole list when the sweep runs to
    its end, and no sweep writes more frames than there are candidates. *)
Theorem writeARP_targets_in_order
    (iface : Interface) (addr : IPNet) (h : Handle) (t : nat) (sw : Sweep) :
  writeARP iface addr h t = Some sw ->
  exists cands,
    ips addr = Some cands /\
    ((fun c => DstProtAddress c.1.2) <$> serialized (sw_events sw))
      `prefix_of` cands /\
    (sw_err sw = None ->
     (fun c => DstProtAddress c.1.2) <$> serialized (sw_events sw) = cands) /\
    (length (writes (sw_events sw)) <= length cands)%nat.
Proof.
  unfold writeARP. destruct (ips addr) as [cands|]; [|discriminate].
  intros [= <-]. exists cands. split; [reflexivity|].
  destruct (sweep_targets iface (eth_of iface) (arp_of iface addr) cands h
                          NewSerializeBuffer t) as [Hp He].
  split; [exact Hp|]. split; [exact He|].
  destruct (sweep_replay iface (eth_of iface) (arp_of iface addr) cands h
                         NewSerializeBuffer t) as [Hlen _].
  rewrite Hlen. apply prefix_length in Hp. rewrite length_fmap in Hp. exact Hp.
Qed.

(** With a /32 mask there is no candidate: a sweep polls, serializes and
    writes nothing and returns no error, even after the cancellation, so
    the driver does nothing at all until its [select] takes the
    cancellation case, which is the only way it stops. *)
Theorem slash32_driver_is_idle
    (iface : Interface) (addr : IPNet) (a : Z) (sched : list Woken) (h : Handle) (t : nat) :
  Uint32 (ipnet_IP addr) = Some a ->
  Uint32 (ipnet_Mask addr) = Some MaxUint32 ->
  ips addr = Some [] /\
  writeARP iface addr h t = Some (mkSweep [] h [] t None) /\
  scan_loop iface addr sched h t
  = if bool_decide (WokenDone ∈ sched)
    then ([EvLog (LogStopScanner (Name iface)); EvClose], Stopped)
    else ([], Waiting).
Proof.
  intros Ha Hm.
  assert (Hips : ips addr = Some []).
  { unfold ips. rewrite Ha, Hm, ips_loop_equation_1.
    destruct (Z_lt_dec MaxUint32 MaxUint32); [lia|reflexivity]. }
  assert (Hw : writeARP iface addr h t = Some (mkSweep [] h [] t None)).
  { unfold writeARP. rewrite Hips. reflexivity. }
  split; [exact Hips|]. split; [exact Hw|].
  case_bool_decide as Hin.
  - induction sched as [|[|] rest IH]; simpl.
    + inversion Hin.
    + reflexivity.
    + rewrite Hw. simpl. rewrite IH; [reflexivity|].
      apply elem_of_cons in Hin as [Hd | Hin]; [discriminate|exact Hin].
  - induction sched as [|[|] rest IH]; simpl.
    + reflexivity.
    + exfalso. apply Hin. left.
    + rewrite Hw. simpl. rewrite IH; [reflexivity|].
      intros Hr. apply Hin. right. exact Hr.
Qed.

Lemma sweep_no_lifecycle iface eth arp cands h buf t :
  (EvClose ∉ sw_events (sweep iface eth arp cands h buf t)) /\
  (EvSpawnReader ∉ sw_events (sweep iface eth arp cands h buf t)).
Proof.
  revert arp h buf t. induction cands as [|ip rest IH]; intros arp h buf t.
  - split; intros H; inversion H.
  - sweep_cases; simpl.
    + split; intros H; repeat (apply elem_of_cons in H as [H|H]; [discriminate|]);
        inversion H.
    + split; intros H; repeat (apply elem_of_cons in H as [H|H]; [discriminate|]);
        apply elem_of_app in H as [H|H];
        try (destruct o; simpl in H);
        repeat (apply elem_of_cons in H as [H|H]; [discriminate|]);
        inversion H.
    + destruct (IH (set_DstProtAddress arp ip) h0 l (S t)) as [IHc IHs].
      split; intros H; repeat (apply elem_of_cons in H as [H|H]; [discriminate|]);
        apply elem_of_app in H as [H|H]; try contradiction;
        apply elem_of_app in H as [H|H];
        try (destruct o; simpl in H);
        repeat (apply elem_of_cons in H as [H|H]; [discriminate|]);
        inversion H.
Qed.

Lemma scan_loop_lifecycle iface addr sched h t :
  (EvSpawnReader ∉ (scan_loop iface addr sched h t).1) /\
  match (scan_loop iface addr sched h t).2 with
  | Stopped => exists pre, (scan_loop iface addr sched h t).1 = pre ++ [EvClose] /\
                           EvClose ∉ pre
  | Waiting => EvClose ∉ (scan_loop iface addr sched h t).1
  | Panicked => True
  end.
Proof.
  revert h t. induction sched as [|[|] rest IH]; intros h t; simpl.
  - split; intros H; inversion H.
  - split.
    + intros H. repeat (apply elem_of_cons in H as [H|H]; [discriminate|]). inversion H.
    + exists [EvLog (LogStopScanner (Name iface))]. split; [reflexivity|].
      intros H. apply list_elem_of_singleton in H. discriminate.
  - unfold writeARP. destruct (ips addr) as [cands|]; simpl;
      [|split; [intros H; inversion H|exact I]].
    set (sw := sweep _ _ _ _ _ _ _).
    destruct (sweep_no_lifecycle iface (eth_of iface) (arp_of iface addr) cands h
                                 NewSerializeBuffer t) as [Hc Hs].
    fold sw in Hc, Hs.
    destruct (sw_err sw) as [e|]; simpl.
    + split.
      * intros H. apply elem_of_app in H as [H|H]; [contradiction|].
        repeat (apply elem_of_cons in H as [H|H]; [discriminate|]). inversion H.
      * exists (sw_events sw ++ [EvLog (LogWriteError (Name iface) e)]).
        rewrite <- app_assoc. split; [reflexivity|].
        intros H. apply elem_of_app in H as [H|H]; [contradiction|].
        apply list_elem_of_singleton in H. discriminate.
    + specialize (IH (sw_handle sw) (sw_time sw)).
      destruct (scan_loop iface addr rest (sw_handle sw) (sw_time sw)) as [evs st].
      simpl in *. destruct IH as [IHs IHc]. split.
      * intros H. apply elem_of_app in H as [H|H]; contradiction.
      * destruct st; [| |exact I].
        -- intros H. apply elem_of_app in H as [H|H]; contradiction.
        -- destruct IHc as (pre & -> & Hpre).
           exists (sw_events sw ++ pre). rewrite app_assoc. split; [reflexivity|].
           intros H. apply elem_of_app in H as [H|H]; contradiction.
Qed.

(** A [scanIface] that has opened its handle announces the scan, starts
    exactly one [readARP], before it sends anything, and closes the handle
    exactly once, as the last thing it does when it returns; while it waits
    in its [select] the handle is open. *)
Theorem scanIface_handle_lifecycle
    (iface : Interface) (sched : list Woken)
    (addr : IPNet) (evs : list Event) (st : DriverStatus) :
  scanIface iface sched = Scanned addr evs st ->
  exists body,
    evs = EvLog (LogScanning (Name iface)) :: EvSpawnReader :: body /\
    (EvSpawnReader ∉ body) /\
    match st with
    | Stopped => exists pre, body = pre ++ [EvClose] /\ EvClose ∉ pre
    | Waiting => EvClose ∉ body
    | Panicked => True
    end.
Proof.
  unfold scanIface.
  destruct (Addrs iface) as [addrs|]; [|discriminate].
  destruct (length addrs =? 0)%nat; [discriminate|].
  destruct (find_addr addrs zeroIPNet) as [addr'|]; [|discriminate].
  destruct (OpenLive (Name iface)) as [h|]; [|discriminate].
  pose proof (scan_loop_lifecycle iface addr' sched h 0%nat) as Hl.
  destruct (scan_loop iface addr' sched h 0) as [evs' st'].
  intros [= <- <- <-]. exists evs'. split; [reflexivity|]. exact Hl.
Qed.

Lemma land_pow2_eqb (f k : Z) :
  0 <= k -> (Z.land f (2 ^ k) =? 0) = negb (Z.testbit f k).
Proof.
  intros Hk. destruct (Z.testbit f k) eqn:Hb; simpl.
  - apply Z.eqb_neq. intros H0.
    assert (Hbit : Z.testbit (Z.land f (2 ^ k)) k = true)
      by (rewrite Z.land_spec, Hb, Z.pow2_bits_true by lia; reflexivity).
    rewrite H0, Z.bits_0 in Hbit. discriminate.
  - apply Z.eqb_eq. apply Z.bits_inj'. intros n Hn.
    rewrite Z.land_spec, Z.bits_0, Z.pow2_bits_eqb by lia.
    destruct (Z.eqb_spec k n) as [<- | _]; [rewrite Hb|]; auto using andb_false_r.
Qed.

(** [getInterfaces] hands an error of [net.Interfaces] on; otherwise it
    returns, in their order, exactly the interfaces that are up (bit 0 of
    the flags), neither loopback (bit 2) nor point-to-point (bit 3), and
    physical. An interface whose sysfs link cannot be read is left out. *)
Theorem getInterfaces_selects :
  (forall e, Interfaces = Err e -> getInterfaces = Err e) /\
  (forall allIfaces, Interfaces = Ok allIfaces ->
     exists ifaces,
       getInterfaces = Ok ifaces /\
       ifaces `sublist_of` allIfaces /\
       (forall i, i ∈ ifaces <->
          i ∈ allIfaces /\
          Z.testbit (IfaceFlags i) 0 = true /\
          Z.testbit (IfaceFlags i) 2 = false /\
          Z.testbit (IfaceFlags i) 3 = false /\
          isPhysicalNIC i = true) /\
       (forall i e, Readlink (Join sysfsPath (Name i)) = Err e -> i ∉ ifaces)).
Proof.
  split.
  - intros e He. unfold getInterfaces. rewrite He. reflexivity.
  - intros allIfaces Ha. unfold getInterfaces. rewrite Ha.
    eexists. split; [reflexivity|]. split; [apply sublist_filter|].
    assert (Hel : forall i, eligible i = true <->
                    Z.testbit (IfaceFlags i) 0 = true /\
                    Z.testbit (IfaceFlags i) 2 = false /\
                    Z.testbit (IfaceFlags i) 3 = false /\
                    isPhysicalNIC i = true).
    { intros i. unfold eligible, skipped_by_flags, FlagPointToPoint, FlagLoopback, FlagUp.
      change 8 with (2 ^ 3). change 4 with (2 ^ 2). change 1 with (2 ^ 0).
      rewrite !land_pow2_eqb by lia.
      destruct (Z.testbit (IfaceFlags i) 0), (Z.testbit (IfaceFlags i) 2),
        (Z.testbit (IfaceFlags i) 3), (isPhysicalNIC i); simpl;
        split; try discriminate; intuition discriminate. }
    split.
    + intros i. rewrite list_elem_of_filter, Hel. tauto.
    + intros i e Hr Hin. apply list_elem_of_filter in Hin as [Hin _].
      apply Hel in Hin as (_ & _ & _ & Hp).
      unfold isPhysicalNIC in Hp. rewrite Hr in Hp. discriminate.
Qed.

End DriverMore.

Section ScannerMoreExamples.
Import Bytes Net Layers Enumerator Scanner Trace Lab.

Lemma find_addr_takes_first_ipv4_witness :
  @find_addr
    [AddrIPAddr ip9; AddrIPNet linklocal6;
     AddrIPNet (mkIPNet [x00; x00; x00; x00; x00; x00; x00; x00;
                         x00; x00; xff; xff; xc0; xa8; x01; x0a]
                        [xff; xff; xff; xff; xff; xff; xff; xff;
                         xff; xff; xff; xff; xff; xff; xff; xfc]);
     AddrIPNet (mkIPNet ip8 [xff; xff; xff; x00])]
    zeroIPNet
  = Some net30.
Proof.
  destruct (@find_addr_takes_first_ipv4
              [AddrIPAddr ip9; AddrIPNet linklocal6]
              (mkIPNet [x00; x00; x00; x00; x00; x00; x00; x00;
                        x00; x00; xff; xff; xc0; xa8; x01; x0a]
                       [xff; xff; xff; xff; xff; xff; xff; xff;
                        xff; xff; xff; xff; xff; xff; xff; xfc])
              [AddrIPNet (mkIPNet ip8 [xff; xff; xff; x00])]
              ip10 zeroIPNet) as (_ & Hfound & _).
  - repeat constructor.
  - reflexivity.
  - destruct (Hfound [xff; xff; xff; xfc] eq_refl) as [H _]. exact H.
Defined.


Lemma writeARP_targets_in_order_witness :
  exists sw,
    @writeARP (lab never at_second none) eth0 net30 0%nat 0%nat = Some sw /\
    (fun c => DstProtAddress c.1.2) <$> serialized (sw_events sw) = [ip8; ip9] /\
    (length (writes (sw_events sw)) <= 3)%nat.
Proof.
  eexists. split; [vm_compute; reflexivity|].
  match goal with |- context [sw_events ?s] => set (sw := s) end.
  destruct (@writeARP_targets_in_order (lab never at_second none)
              eth0 net30 0%nat 0%nat sw ltac:(vm_compute; reflexivity))
    as (cands & Hips & _ & _ & Hlen).
  assert (Hc : cands = [ip8; ip9; ip10])
    by (vm_compute in Hips; injection Hips as <-; reflexivity).
  rewrite Hc in Hlen. split; [vm_compute; reflexivity|exact Hlen].
Defined.

Lemma slash32_driver_is_idle_witness :
  @scan_loop (lab always never none) eth0
             (mkIPNet ip10 [xff; xff; xff; xff])
             [WokenTick; WokenTick; WokenDone; WokenTick] 0%nat 0%nat
  = ([EvLog (LogStopScanner "eth0"); EvClose], Stopped).
Proof.
  destruct (@slash32_driver_is_idle (lab always never none) eth0
              (mkIPNet ip10 [xff; xff; xff; xff]) 0xc0a8010a
              [WokenTick; WokenTick; WokenDone; WokenTick] 0%nat 0%nat
              eq_refl eq_refl) as (_ & _ & H).
  rewrite H. reflexivity.
Defined.

Lemma scanIface_handle_lifecycle_witness :
  exists evs,
    @scanIface (lab never never none) eth0 [WokenTick; WokenDone]
    = Scanned net30 evs Stopped /\
    last evs = Some EvClose.
Proof.
  eexists. split; [vm_compute; reflexivity|].
  match goal with |- last ?e = _ => set (evs := e) end.
  destruct (@scanIface_handle_lifecycle (lab never never none) eth0
              [WokenTick; WokenDone] net30 evs Stopped
              ltac:(vm_compute; reflexivity))
    as (body & Hev & _ & pre & -> & _).
  rewrite Hev. change (EvLog (LogScanning (Name eth0)) :: EvSpawnReader :: pre ++ [EvClose])
    with ((EvLog (LogScanning (Name eth0)) :: EvSpawnReader :: pre) ++ [EvClose]).
  apply last_snoc.
Defined.

Lemma getInterfaces_selects_witness :
  @getInterfaces (lab never never none) = Ok [eth0; eth1; eth2; eth3] /\
  Z.testbit (IfaceFlags eth0) 0 = true.
Proof.
  destruct (@getInterfaces_selects (lab never never none)) as [_ Hsel].
  destruct (Hsel [eth0; eth1; eth2; eth3] eq_refl) as (ifaces & Hg & _ & Hiff & _).
  split; [vm_compute; reflexivity|].
  assert (Hin : eth0 ∈ ifaces)
    by (vm_compute in Hg; injection Hg as <-; left).
  apply Hiff in Hin as (_ & Hup & _). exact Hup.
Defined.

End ScannerMoreExamples.

(** ** The goroutines before the cancellation *)

Section CoordinatorMore.
Import Coordinator.

Lemma step_not_panicked (a : Action) (w w' : World) :
  step a w = Some w' -> panicked w = false.
Proof. unfold step. destruct (panicked w); [discriminate|reflexivity]. Qed.

Lemma init_shaped (n : nat) : shaped (init n).
Proof.
  split; [|discriminate]. intros i s Hi. simpl in *.
  apply lookup_replicate in Hi as [-> _]. split; [lia|reflexivity].
Qed.

Lemma init_balanced (n : nat) : balanced (init n).
Proof. split; simpl; lia. Qed.

Lemma step_shaped (a : Action) (w w' : World) :
  shaped w -> step a w = Some w' -> shaped w'.
Proof.
  intros [Hsh Hret]. unfold step.
  destruct (panicked w); [discriminate|].
  destruct a as [| | |i|i|i|i|i]; intros Hs;
    try (apply guard_Some in Hs as [Hg ->]);
    try (injection Hs as <-);
    unfold shaped, driver_is, reader_is in *; simpl in *;
    try (apply andb_true_iff in Hg as [Hg Hg']);
    try (apply andb_true_iff in Hg as [Hg Hg'']);
    try (apply bool_decide_eq_true in Hg);
    try (apply bool_decide_eq_true in Hg').
  - apply negb_true_iff in Hg. split; [|congruence].
    intros j s Hj. apply lookup_insert_Some in Hj as [[<- ->] | [Hne Hj]].
    + split; [discriminate|lia].
    + rewrite (Hsh _ _ Hj). lia.
  - split; [exact Hsh|]. intros _. apply Nat.eqb_eq. exact Hg''.
  - split; assumption.
  - split; [|rewrite length_insert; exact Hret].
    intros j s Hj. apply lookup_insert_Some in Hj as [[<- ->] | [Hne Hj]];
      [|exact (Hsh _ _ Hj)].
    pose proof (Hsh _ _ Hg) as Hi. split; [discriminate|].
    intros Hle. apply Hi in Hle. discriminate.
  - split; [|rewrite length_insert; exact Hret].
    intros j s Hj. apply lookup_insert_Some in Hj as [[<- ->] | [Hne Hj]];
      [|exact (Hsh _ _ Hj)].
    pose proof (Hsh _ _ Hg) as Hi. split; [discriminate|].
    intros Hle. apply Hi in Hle. discriminate.
  - split; [|rewrite length_insert; exact Hret].
    intros j s Hj. apply lookup_insert_Some in Hj as [[<- ->] | [Hne Hj]];
      [|exact (Hsh _ _ Hj)].
    pose proof (Hsh _ _ Hg) as Hi. split; [discriminate|].
    intros Hle. apply Hi in Hle. discriminate.
  - split; [|rewrite length_insert; exact Hret].
    intros j s Hj. apply lookup_insert_Some in Hj as [[<- ->] | [Hne Hj]];
      [|exact (Hsh _ _ Hj)].
    pose proof (Hsh _ _ Hg) as Hi. split; [discriminate|].
    intros Hle. apply Hi in Hle. discriminate.
  - split; assumption.
Qed.

Lemma step_balanced (a : Action) (w w' : World) :
  balanced w -> step a w = Some w' -> balanced w'.
Proof.
  intros [Hnn Hle]. unfold step.
  destruct (panicked w) eqn:Hp; [discriminate|]. specialize (Hnn eq_refl).
  destruct a as [| | |i|i|i|i|i]; intros Hs;
    try (apply guard_Some in Hs as [Hg ->]);
    try (injection Hs as <-);
    unfold balanced in *; simpl in *; rewrite ?Hp; simpl.
  - apply andb_true_iff in Hg as [Hg _]. apply negb_true_iff in Hg.
    split; [lia|congruence].
  - apply andb_true_iff in Hg as [_ Hg]. apply Z.eqb_eq in Hg. split; lia.
  - split; [auto|exact Hle].
  - split; [intros H; apply Z.ltb_ge in H; lia | intros H; specialize (Hle H); lia].
  - split; [auto|exact Hle].
  - split; [intros H; apply Z.ltb_ge in H; lia | intros H; specialize (Hle H); lia].
  - split; [intros H; apply Z.ltb_ge in H; lia | intros H; specialize (Hle H); lia].
  - split; [intros H; apply Z.ltb_ge in H; lia | intros H; specialize (Hle H); lia].
Qed.

Lemma step_length (a : Action) (w w' : World) :
  step a w = Some w' -> length (drivers w') = length (drivers w).
Proof.
  unfold step. destruct (panicked w); [discriminate|].
  destruct a; intros Hs;
    try (apply guard_Some in Hs as [_ ->]); try (injection Hs as <-);
    simpl; rewrite ?length_insert; reflexivity.
Qed.

(** The facts that hold of every state the goroutines can reach. *)
Lemma reachable_sound (n : nat) (acts : list Action) (w : World) :
  exec acts (init n) = Some w ->
  length (drivers w) = n /\ dormant w /\ accounted w /\ shaped w /\ balanced w.
Proof.
  assert (Hgen : forall acts w0 w1,
            length (drivers w0) = n /\ dormant w0 /\ accounted w0 /\ shaped w0 /\ balanced w0 ->
            exec acts w0 = Some w1 ->
            length (drivers w1) = n /\ dormant w1 /\ accounted w1 /\ shaped w1 /\ balanced w1).
  { clear acts w. induction acts as [|a acts IH]; intros w0 w1 H0; simpl.
    - intros [= <-]. exact H0.
    - destruct (step a w0) as [w'|] eqn:Hs; [|discriminate].
      apply IH. destruct H0 as (Hl & Hd & Ha & Hsh & Hb).
      split; [rewrite (step_length _ _ _ Hs); exact Hl|].
      split; [exact (step_dormant _ _ _ Hd Hs)|].
      split; [exact (step_accounted _ _ _ Hd Ha Hs)|].
      split; [exact (step_shaped _ _ _ Hsh Hs) | exact (step_balanced _ _ _ Hb Hs)]. }
  apply Hgen. split; [apply length_replicate|].
  split; [apply init_dormant|]. split; [apply init_accounted|].
  split; [apply init_shaped | apply init_balanced].
Qed.

Lemma reachable_calm (n : nat) (acts : list Action) (w : World) :
  exec acts (init n) = Some w -> cancelled w = false -> panicked w = false.
Proof.
  revert w. induction acts as [|a acts IH] using rev_ind; intros w.
  - intros [= <-]. reflexivity.
  - intros Hexec Hc.
    assert (Hsplit : exists w0, exec acts (init n) = Some w0 /\ step a w0 = Some w).
    { clear IH Hc. revert Hexec. generalize (init n).
      induction acts as [|b acts IHa]; intros w0; simpl.
      - destruct (step a w0) as [w1|] eqn:Hs; [|discriminate].
        intros [= <-]. exists w0. split; [reflexivity|exact Hs].
      - destruct (step b w0) as [w1|]; [|discriminate]. apply IHa. }
    destruct Hsplit as (w0 & H0 & Hs).
    destruct (reachable_sound n acts w0 H0) as (_ & _ & [Hwg Hrd] & _ & _).
    pose proof (step_not_panicked _ _ _ Hs) as Hp0.
    revert Hs. unfold step. rewrite Hp0.
    destruct a as [| | |i|i|i|i|i]; intros Hs;
      try (apply guard_Some in Hs as [Hg ->]);
      try (injection Hs as <-);
      unfold driver_is, reader_is in *; simpl in *;
      try exact Hp0; try discriminate;
      try (apply andb_true_iff in Hg as [Hg Hg']);
      try congruence;
      apply bool_decide_eq_true in Hg;
      rewrite Hp0; simpl; apply Z.ltb_ge;
      pose proof (tally_member is_live _ _ _ Hg eq_refl);
      specialize (Hrd Hc); lia.
Qed.

(** Before the cancellation fires the counter of the WaitGroup is the
    number of [scanIface] goroutines still running, it is never negative,
    and the process has not panicked. *)
Theorem no_panic_before_cancellation (n : nat) (acts : list Action) (w : World) :
  exec acts (init n) = Some w ->
  cancelled w = false ->
  panicked w = false /\
  wg w = tally is_live (drivers w) /\
  0 <= wg w /\
  tally is_returned (readers w) = 0.
Proof.
  intros Hexec Hc.
  destruct (reachable_sound n acts w Hexec) as (_ & _ & [Hwg Hrd] & _ & _).
  specialize (Hrd Hc).
  split; [exact (reachable_calm n acts w Hexec Hc)|].
  split; [lia|]. split; [|exact Hrd].
  pose proof (tally_nonneg is_live (drivers w)). lia.
Qed.

(** Without a cancellation [run] returns only after it has started a
    [scanIface] for every interface and every one of them has returned:
    for the goroutines it counts, the WaitGroup does its work. *)
Theorem run_waits_for_every_scanIface (n : nat) (acts : list Action) (w : World) :
  exec acts (init n) = Some w ->
  cancelled w = false ->
  returned w = true ->
  started w = n /\
  forall i, (i < n)%nat -> drivers w !! i = Some Returned.
Proof.
  intros Hexec Hc Hret.
  destruct (reachable_sound n acts w Hexec)
    as (Hlen & _ & [Hwg Hrd] & [Hsh Hst] & [Hnn Hle]).
  pose proof (reachable_calm n acts w Hexec Hc) as Hp.
  specialize (Hrd Hc). specialize (Hnn Hp). specialize (Hle Hret).
  specialize (Hst Hret).
  split; [lia|]. intros i Hi.
  destruct (lookup_lt_is_Some_2 (drivers w) i ltac:(lia)) as [s Hs].
  rewrite Hs. f_equal.
  pose proof (Hsh _ _ Hs) as Habs.
  destruct s; try reflexivity.
  - exfalso. assert (started w <= i)%nat by (apply Habs; reflexivity). lia.
  - pose proof (tally_member is_live _ _ _ Hs eq_refl). lia.
  - pose proof (tally_member is_live _ _ _ Hs eq_refl). lia.
Qed.

(** Once [run] has returned with the process still alive, the counter is
    zero, so any goroutine that returns after that takes it below zero
    and makes [sync] panic. *)
Theorem return_after_run_panics (n : nat) (acts : list Action) (w : World) :
  exec acts (init n) = Some w ->
  returned w = true ->
  panicked w = false ->
  wg w = 0 /\
  forall a w', is_return a = true -> step a w = Some w' ->
    wg w' = -1 /\ panicked w' = true.
Proof.
  intros Hexec Hret Hp.
  destruct (reachable_sound n acts w Hexec) as (_ & _ & _ & _ & [Hnn Hle]).
  specialize (Hnn Hp). specialize (Hle Hret).
  assert (Hz : wg w = 0) by lia. split; [exact Hz|].
  intros a w' Ha. unfold step. rewrite Hp.
  destruct a; try discriminate; intros Hs;
    apply guard_Some in Hs as [_ ->]; simpl; rewrite Hz, Hp; split; reflexivity.
Qed.

Lemma no_panic_before_cancellation_witness :
  exists w,
    exec [RunSpawn; RunSpawn; SetupDone 0; SetupFails 1; DriverFails 0] (init 2) = Some w /\
    panicked w = false /\ wg w = 0.
Proof.
  eexists. split; [reflexivity|].
  destruct (no_panic_before_cancellation 2
              [RunSpawn; RunSpawn; SetupDone 0; SetupFails 1; DriverFails 0]
              _ eq_refl eq_refl) as (Hp & Hwg & _ & _).
  split; [exact Hp|reflexivity].
Defined.

Lemma run_waits_for_every_scanIface_witness :
  exists w,
    exec [RunSpawn; RunSpawn; SetupDone 0; SetupFails 1; DriverFails 0; RunWait]
         (init 2) = Some w /\
    drivers w !! 0%nat = Some Returned /\ drivers w !! 1%nat = Some Returned.
Proof.
  eexists. split; [reflexivity|].
  destruct (run_waits_for_every_scanIface 2
              [RunSpawn; RunSpawn; SetupDone 0; SetupFails 1; DriverFails 0; RunWait]
              _ eq_refl eq_refl eq_refl) as [_ Hall].
  split; apply Hall; lia.
Defined.

Lemma return_after_run_panics_witness :
  exists w',
    exec [RunSpawn; SetupDone 0; Cancel; ReaderDone 0; RunWait; DriverDone 0]
         (init 1) = Some w' /\
    panicked w' = true.
Proof.
  eexists. split; [reflexivity|].
  destruct (return_after_run_panics 1
              [RunSpawn; SetupDone 0; Cancel; ReaderDone 0; RunWait]
              _ eq_refl eq_refl eq_refl) as [_ Hnext].
  destruct (Hnext (DriverDone 0) _ eq_refl eq_refl) as [_ Hp]. exact Hp.
Defined.

End CoordinatorMore.

(** ** The application context *)

Section AppContextMore.
Import AppContext.

Lemma calls_settled (k : nat) (g : Globals) :
  once_done g = true -> calls k g = (g, replicate k (ctx g)).
Proof.
  intros Hd. induction k as [|k IH]; simpl; [reflexivity|].
  unfold GetApplicationContext. rewrite Hd, IH. reflexivity.
Qed.

(** However often [GetApplicationContext] is called, only the first call
    makes a context and starts a signal goroutine; every later call
    returns that same context and leaves the variables as they are. From
    the start of the program the context returned is never nil. *)
Theorem GetApplicationContext_once (g : Globals) (k : nat) :
  calls k (GetApplicationContext g).1
    = ((GetApplicationContext g).1, replicate k (GetApplicationContext g).2) /\
  (once_done g = false ->
   created (GetApplicationContext g).1 = S (created g) /\
   watching (GetApplicationContext g).1 = created g :: watching g /\
   (GetApplicationContext g).2 = Some (created g) /\
   cancelFunc (GetApplicationContext g).1 = (GetApplicationContext g).2) /\
  (calls (S k) start).2 = replicate (S k) (Some 0%nat) /\
  created (calls (S k) start).1 = 1%nat /\
  watching (calls (S k) start).1 = [0%nat].
Proof.
  split; [|split].
  - unfold GetApplicationContext. destruct (once_done g) eqn:Hd; simpl.
    + rewrite (calls_settled k g Hd). reflexivity.
    + rewrite calls_settled by reflexivity. reflexivity.
  - intros Hd. unfold GetApplicationContext. rewrite Hd. simpl. auto.
  - simpl. rewrite calls_settled by reflexivity. simpl. auto.
Qed.

End AppContextMore.

(** ** The size of a sweep *)

Section SweepSize.
Import Bytes Net Layers Enumerator Scanner Trace.
Context `{ext : External}.

(** A sweep that runs to its end has polled the signal and written a frame
    once for each of the [0xffffffff - mask] addresses of [ips], every
    write with success, and the driver's count of polls has gone up by
    that number. *)
Theorem completed_sweep_size
    (iface : Interface) (addr : IPNet) (a mask : Z) (h : Handle) (t : nat) (sw : Sweep) :
  Uint32 (ipnet_IP addr) = Some a ->
  Uint32 (ipnet_Mask addr) = Some mask ->
  writeARP iface addr h t = Some sw ->
  sw_err sw = None ->
  Z.of_nat (length (writes (sw_events sw))) = MaxUint32 - mask /\
  Z.of_nat (length (polls (sw_events sw))) = MaxUint32 - mask /\
  Forall (fun w => w.2 = None) (writes (sw_events sw)) /\
  Forall (fun b => b = false) (polls (sw_events sw)).
Proof.
  intros Ha Hm Hw Herr. unfold writeARP in Hw.
  rewrite (ips_general addr a mask Ha Hm) in Hw. injection Hw as <-.
  destruct (sweep_complete _ _ _ _ _ _ _ Herr) as (Hlen & Hpolls & Hok).
  apply Uint32_range in Hm. change (2 ^ 32) with 4294967296 in Hm.
  assert (Hn : Z.of_nat (length (PutUint32 <$> seqZ (Z.land a mask) (MaxUint32 - mask)))
               = MaxUint32 - mask).
  { rewrite length_fmap, length_seqZ. unfold MaxUint32. lia. }
  split; [rewrite Hlen; exact Hn|].
  split; [rewrite Hpolls, length_replicate; exact Hn|].
  split; [exact Hok|].
  rewrite Hpolls. apply Forall_replicate. reflexivity.
Qed.

End SweepSize.

Section SweepSizeExample.
Import Bytes Net Layers Enumerator Scanner Trace Lab.

Lemma completed_sweep_size_witness :
  exists sw,
    @writeARP (lab never never none) eth0 net30 0%nat 0%nat = Some sw /\
    Z.of_nat (length (writes (sw_events sw))) = 3.
Proof.
  eexists. split; [vm_compute; reflexivity|].
  match goal with |- context [sw_events ?s] => set (sw := s) end.
  destruct (@completed_sweep_size (lab never never none) eth0 net30
              0xc0a8010a 0xfffffffc 0%nat 0%nat sw
              eq_refl eq_refl ltac:(vm_compute; reflexivity)
              ltac:(vm_compute; reflexivity)) as [Hlen _].
  exact Hlen.
Defined.

End SweepSizeExample.

Section AppContextExample.
Import AppContext.

Lemma GetApplicationContext_once_witness :
  (calls 3 start).2 = [Some 0%nat; Some 0%nat; Some 0%nat] /\
  created (GetApplicationContext start).1 = 1%nat.
Proof.
  destruct (GetApplicationContext_once start 2) as (_ & Hfirst & Hall & _).
  split; [exact Hall|].
  destruct (Hfirst eq_refl) as [Hc _]. exact Hc.
Defined.

End AppContextExample.
